(** * based_utils: interpolation bounds, ranges and colors

    A shallow embedding of [based_utils/calx/interpol.py] and
    [based_utils/colors.py].  Python floats are modelled by exact rationals
    ([Q]); Python's exceptions by the sum type [exc]. *)

From Stdlib Require Import QArith Qround Qabs Lqa Lia ZArith List Bool String Ascii Sorted.
Import ListNotations.
Open Scope Q_scope.

(** ** Python runtime *)

(** The exceptions the modelled code can raise. *)
Inductive py_error :=
| ZeroDivisionError
| ValueError.

(** A computation that returns a value or raises. *)
Inductive exc (A : Type) :=
| Ok (a : A)
| Raise (e : py_error).
Arguments Ok {A} a.
Arguments Raise {A} e.

Definition bind {A B} (m : exc A) (k : A -> exc B) : exc B :=
  match m with Ok a => k a | Raise e => Raise e end.

Notation "x <- m ;; k" := (bind m (fun x => k))
  (at level 61, m at next level, right associativity).

Definition is_raise {A} (m : exc A) : bool :=
  match m with Raise _ => true | Ok _ => false end.

(** Comparisons on numbers, as booleans. *)
Definition Qltb (a b : Q) : bool := negb (Qle_bool b a).
Definition Qeqb (a b : Q) : bool := Qeq_bool a b.

(** [a / b]: raises [ZeroDivisionError] on a zero divisor. *)
Definition py_div (a b : Q) : exc Q :=
  if Qeqb b 0 then Raise ZeroDivisionError else Ok (a / b).

(** [a % b] on floats: the result has the sign of [b],
    [a - b * floor(a / b)]; raises [ZeroDivisionError] on [b = 0]. *)
Definition py_mod (a b : Q) : exc Q :=
  if Qeqb b 0 then Raise ZeroDivisionError
  else Ok (a - b * inject_Z (Qfloor (a / b))).

(** [abs], [min], [max] *)
Definition py_abs (a : Q) : Q := Qabs a.
Definition py_min (a b : Q) : Q := if Qle_bool a b then a else b.
Definition py_max (a b : Q) : Q := if Qle_bool b a then a else b.

(** [math.isclose(a, b)] with its defaults [rel_tol=1e-09], [abs_tol=0.0]. *)
Definition rel_tol : Q := 1 # 1000000000.
Definition isclose (a b : Q) : bool :=
  Qeqb a b ||
  Qle_bool (py_abs (a - b)) (py_max (rel_tol * py_max (py_abs a) (py_abs b)) 0).

(** ** calx/interpol.py *)

(** [trim(n, lower=0, upper=1)] *)
Definition trim (n lower upper : Q) : Q := py_min (py_max lower n) upper.

(** [InterpolationBounds]: [_start], [_end]; [_span] is cached. *)
Record InterpolationBounds := mkBounds { b_start : Q; b_end : Q }.

Definition span (b : InterpolationBounds) : Q := b_end b - b_start b.

Definition interpolate (b : InterpolationBounds) (f : Q) : Q :=
  b_start b + span b * f.

(** [inverse_interpolate]: the [ZeroDivisionError] of the division is
    caught and turned into [0.0]. *)
Definition inverse_interpolate (b : InterpolationBounds) (n : Q) (inside : bool)
  : exc Q :=
  match py_div (n - b_start b) (span b) with
  | Raise ZeroDivisionError => Ok 0
  | Raise e => Raise e
  | Ok f => Ok (if inside then trim f 0 1 else f)
  end.

(** [CyclicInterpolationBounds]: the linear bounds it extends, and [_period]. *)
Record CyclicInterpolationBounds := mkCyclic { c_base : InterpolationBounds; c_period : Q }.

(** [CyclicInterpolationBounds.__init__] *)
Definition cyclic_init (start end_ period : Q) : exc CyclicInterpolationBounds :=
  start <- py_mod start period ;;
  end_ <- py_mod end_ period ;;
  let start :=
    if Qltb (period / 2) (py_abs (end_ - start))
    then (if Qltb start end_ then start + period else start - period)
    else start in
  Ok (mkCyclic (mkBounds start end_) period).

Definition cyclic_interpolate (c : CyclicInterpolationBounds) (f : Q) : exc Q :=
  py_mod (interpolate (c_base c) f) (c_period c).

Definition cyclic_inverse_interpolate (c : CyclicInterpolationBounds) (n : Q) (inside : bool)
  : exc Q :=
  n' <- py_mod n (c_period c) ;;
  inverse_interpolate (c_base c) n' inside.

(** [math.log(x, base)], parameterised by the natural logarithm [ln]
    (only its value on positive arguments is ever used): CPython checks [x],
    then [base], and divides the two logarithms. *)
Section Logarithm.
Variable ln : Q -> Q.

Definition py_log (x base : Q) : exc Q :=
  if Qle_bool x 0 then Raise ValueError
  else if Qle_bool base 0 then Raise ValueError
  else py_div (ln x) (ln base).

(** [LogarithmicInterpolationBounds]: linear bounds over the logarithms. *)
Record LogarithmicInterpolationBounds := mkLog { l_base_bounds : InterpolationBounds; l_base : Q }.

Definition log_init (start end_ base : Q) : exc LogarithmicInterpolationBounds :=
  ls <- py_log start base ;;
  le <- py_log end_ base ;;
  Ok (mkLog (mkBounds ls le) base).

Definition log_inverse_interpolate (l : LogarithmicInterpolationBounds) (n : Q) (inside : bool)
  : exc Q :=
  ln_n <- py_log n (l_base l) ;;
  inverse_interpolate (l_base_bounds l) ln_n inside.

End Logarithm.

(** [x or default] for an optional float argument: [None] and [0.0] are
    falsy. *)
Definition py_or (x : option Q) (default : Q) : Q :=
  match x with
  | Some v => if Qeqb v 0 then default else v
  | None => default
  end.

(** The condition of [frange]'s loop: [n < e and not isclose(n, e)]. *)
Definition while_cond (n e : Q) : bool := Qltb n e && negb (isclose n e).

(** The [while] loop of [frange], run for at most [fuel] iterations: the
    values yielded, and whether the loop has exited ([false]: still
    running when the fuel ran out). *)
Fixpoint frange_loop (fuel : nat) (step n e : Q) : list Q * bool :=
  match fuel with
  | O => ([], false)
  | S fuel' =>
      if while_cond n e
      then let '(rest, done_) := frange_loop fuel' step (n + step) e in (n :: rest, done_)
      else ([], true)
  end.

(** [frange(step, start_or_end=None, end=None)], the generator run for at
    most [fuel] iterations of its loop (a zero [step] raises [ValueError]
    when the generator is first advanced). *)
Definition frange (fuel : nat) (step : Q) (start_or_end end_ : option Q)
  : exc (list Q * bool) :=
  if Qeqb step 0 then Raise ValueError else
  let '(s, e) :=
    match end_ with
    | None => (0, py_or start_or_end 1)
    | Some e => (py_or start_or_end 0, e)
    end in
  let '(rest, done_) := frange_loop fuel step (s + step) e in
  Ok (s :: rest, done_).

(** [range(a, b)] on ints. *)
Definition py_range (a b : Z) : list Z :=
  map (fun k => (a + Z.of_nat k)%Z) (seq 0 (Z.to_nat (b - a))).

(** [fractions(n, inclusive=False)]; the divisor [end] is at least 2
    whenever the loop body runs, so the division never raises. *)
Definition fractions (n : Z) (inclusive : bool) : list Q :=
  let end_ := (n + 1)%Z in
  (if inclusive then [0] else [])
  ++ map (fun i => inject_Z i / inject_Z end_) (py_range 1 end_)
  ++ (if inclusive then [1] else []).

(** ** colors.py *)

(** [str.lower] on ASCII text. *)
Definition ascii_lower (c : ascii) : ascii :=
  let k := nat_of_ascii c in
  if (65 <=? k)%nat && (k <=? 90)%nat then ascii_of_nat (k + 32) else c.

Fixpoint str_lower (s : string) : string :=
  match s with
  | EmptyString => EmptyString
  | String c s' => String (ascii_lower c) (str_lower s')
  end.

(** [str.removeprefix("#")] *)
Definition remove_hash (s : string) : string :=
  match s with
  | String "#" s' => s'
  | _ => s
  end.

(** [s[1:]] *)
Definition str_tail (s : string) : string :=
  match s with
  | EmptyString => EmptyString
  | String _ s' => s'
  end.

Record RGB := mkRGB { red : Z; green : Z; blue : Z }.

(** [_HSLuv]: hue 0-360, saturation 0-100, lightness 0-100. *)
Record HSLuv := mkHSLuv { h_hue : Q; h_saturation : Q; h_lightness : Q }.

(** [Color]: lightness, saturation and hue as ratios. *)
Record Color := mkColor { lightness : Q; saturation : Q; hue : Q }.

(** The digits [r ++ g ++ b] that [_HSLuv.from_hex] passes on, after the
    [#] is removed and the text lower-cased. *)
Definition expand_hex (rgb_hex : string) : exc string :=
  match rgb_hex with
  | String _ EmptyString =>
      (* 3 -> r=33, g=33, b=33 *)
      let r := (rgb_hex ++ rgb_hex)%string in Ok (r ++ r ++ r)%string
  | String _ (String _ EmptyString) =>
      (* 03 -> r=03, g=03, b=03 *)
      let r := rgb_hex in Ok (r ++ r ++ r)%string
  | String r1 (String g1 (String b1 EmptyString)) =>
      (* 303 -> r=33, g=00, b=33 *)
      Ok (String r1 (String r1 (String g1 (String g1 (String b1 (String b1 EmptyString))))))
  | String r1 (String r2 (String g1 (String g2 (String b1 (String b2 EmptyString))))) =>
      (* 808303 -> r=80, g=83, b=03 *)
      Ok (String r1 (String r2 (String g1 (String g2 (String b1 (String b2 EmptyString))))))
  | _ => Raise ValueError
  end.

(** [format(n, "02x")] *)
Definition hex_digit (d : Z) : ascii :=
  if (d <? 10)%Z then ascii_of_nat (48 + Z.to_nat d) else ascii_of_nat (87 + Z.to_nat d).

Fixpoint hex_digits (fuel : nat) (n : Z) (acc : string) : string :=
  match fuel with
  | O => acc
  | S fuel' =>
      let acc := String (hex_digit (n mod 16)) acc in
      if (n <? 16)%Z then acc else hex_digits fuel' (n / 16) acc
  end.

Definition format_02x (n : Z) : string :=
  let digits := hex_digits (S (Z.to_nat (Z.log2 (Z.abs n)))) (Z.abs n) EmptyString in
  if (n <? 0)%Z then String "-" digits
  else if (n <? 16)%Z then String "0" digits
  else digits.

Section Colors.

(** The [hsluv] package: [hex_to_hsluv] (which raises on text that is not
    a colour) and [hsluv_to_hex]. *)
Variable hex_to_hsluv : string -> exc (Q * Q * Q).
Variable hsluv_to_hex : Q * Q * Q -> string.

(** The tail of [_HSLuv.from_hex]: [hex_to_hsluv(f"#{r}{g}{b}")]. *)
Definition hsluv_of_rgb (rgb : string) : exc (option HSLuv) :=
  t <- hex_to_hsluv (String "#" rgb) ;;
  let '(hue, sat, li) := t in
  Ok (Some (mkHSLuv hue sat li)).

(** [_HSLuv.from_hex] *)
Definition hsluv_from_hex (rgb_hex : option string) : exc (option HSLuv) :=
  match rgb_hex with
  | None => Ok None
  | Some rgb_hex =>
      let rgb_hex := str_lower (remove_hash rgb_hex) in
      rgb <- expand_hex rgb_hex ;;
      hsluv_of_rgb rgb
  end.

(** [_HSLuv.hex] *)
Definition hsluv_hex (h : HSLuv) : string :=
  str_tail (hsluv_to_hex (h_hue h, h_saturation h, h_lightness h)).

(** [Color._from_hsluv] *)
Definition color_from_hsluv (h : option HSLuv) : option Color :=
  match h with
  | None => None
  | Some h => Some (mkColor (h_lightness h / 100) (h_saturation h / 100) (h_hue h / 360))
  end.

(** [Color._hsluv] *)
Definition color_hsluv (c : Color) : HSLuv :=
  mkHSLuv (hue c * 360) (saturation c * 100) (lightness c * 100).

(** [Color.from_hex] *)
Definition color_from_hex (rgb_hex : option string) : exc (option Color) :=
  h <- hsluv_from_hex rgb_hex ;; Ok (color_from_hsluv h).

(** [Color.hex] *)
Definition color_hex (c : Color) : string := hsluv_hex (color_hsluv c).

(** [Color.from_rgb] *)
Definition color_from_rgb (rgb : option RGB) : exc (option Color) :=
  match rgb with
  | None => Ok None
  | Some rgb =>
      color_from_hex (Some (format_02x (red rgb) ++ format_02x (green rgb) ++ format_02x (blue rgb))%string)
  end.

(** [Color.from_hex(rgb_hex).hex] (for a [None] colour, [None]). *)
Definition from_hex_then_hex (rgb_hex : option string) : exc (option string) :=
  c <- color_from_hex rgb_hex ;; Ok (option_map color_hex c).

End Colors.

(** [Color.from_fields] *)
Definition from_fields (lightness saturation hue : Q) : exc Color :=
  h <- py_mod hue 1 ;; Ok (mkColor (trim lightness 0 1) (trim saturation 0 1) h).

Definition opt_default (x : option Q) (d : Q) : Q :=
  match x with None => d | Some v => v end.

(** [Color.but_with] *)
Definition but_with (c : Color) (l s h : option Q) : exc Color :=
  from_fields (opt_default l (lightness c)) (opt_default s (saturation c)) (opt_default h (hue c)).

(** [Color.with_changed] *)
Definition with_changed (c : Color) (l s h : option Q) : exc Color :=
  but_with c (option_map (fun x => lightness c * x) l)
             (option_map (fun x => saturation c * x) s)
             (option_map (fun x => hue c + x) h).

(** [Color.contrasting_shade] *)
Definition contrasting_shade (c : Color) : exc Color :=
  l <- py_mod (lightness c + (1 # 2)) 1 ;; but_with c (Some l) None None.

(** [Color.contrasting_hue] *)
Definition contrasting_hue (c : Color) : exc Color :=
  with_changed c None None (Some (1 # 2)).

(** ** Vocabulary of the statements *)

(** Element-wise equality of two lists of numbers. *)
Fixpoint Qlist_eqb (l1 l2 : list Q) : bool :=
  match l1, l2 with
  | [], [] => true
  | x :: l1', y :: l2' => Qeqb x y && Qlist_eqb l1' l2'
  | _, _ => false
  end.

(** Two colours with equal fields. *)
Definition Color_equiv (c1 c2 : Color) : Prop :=
  lightness c1 == lightness c2 /\ saturation c1 == saturation c2 /\ hue c1 == hue c2.

(** A colour in the ranges [Color.from_fields] normalises to. *)
Definition normalized (c : Color) : Prop :=
  0 <= lightness c <= 1 /\ 0 <= saturation c <= 1 /\ 0 <= hue c < 1.

(** Hex digits: [0-9a-f], and [0-9a-fA-F]. *)
Definition is_lower_hex_digit (c : ascii) : bool :=
  let k := nat_of_ascii c in
  ((48 <=? k) && (k <=? 57))%nat || ((97 <=? k) && (k <=? 102))%nat.

Definition is_hex_digit (c : ascii) : bool :=
  is_lower_hex_digit c || let k := nat_of_ascii c in ((65 <=? k) && (k <=? 70))%nat.

Fixpoint str_forallb (p : ascii -> bool) (s : string) : bool :=
  match s with
  | EmptyString => true
  | String c s' => p c && str_forallb p s'
  end.

(** Six hex digits. *)
Definition is_hex6 (s : string) : bool :=
  (String.length s =? 6)%nat && str_forallb is_hex_digit s.

Definition is_lower_hex6 (s : string) : bool :=
  (String.length s =? 6)%nat && str_forallb is_lower_hex_digit s.

(** What the colour code relies on from the [hsluv] package: on six
    lower-case hex digits, [hsluv_to_hex] undoes [hex_to_hsluv] ... *)
Definition hsluv_roundtrip (hex_to_hsluv : string -> exc (Q * Q * Q))
    (hsluv_to_hex : Q * Q * Q -> string) : Prop :=
  forall s, is_lower_hex6 s = true ->
  exists t, hex_to_hsluv (String "#" s) = Ok t /\ hsluv_to_hex t = String "#" s.

(** ... and [hsluv_to_hex] is a function of the numbers' values. *)
Definition hsluv_to_hex_wd (hsluv_to_hex : Q * Q * Q -> string) : Prop :=
  forall a1 a2 a3 b1 b2 b3, a1 == b1 -> a2 == b2 -> a3 == b3 ->
  hsluv_to_hex (a1, a2, a3) = hsluv_to_hex (b1, b2, b3).

(** A conversion pair meeting both requirements, used to show they can be
    met: the three bytes of the colour, read as numbers. *)
Definition hex_val (c : ascii) : Z :=
  let k := Z.of_nat (nat_of_ascii c) in
  if (k <=? 57)%Z then (k - 48)%Z else (k - 87)%Z.

Definition byte_hex_to_hsluv (s : string) : exc (Q * Q * Q) :=
  match s with
  | String "#" (String r1 (String r2 (String g1 (String g2 (String b1 (String b2 EmptyString)))))) =>
      if is_lower_hex6 (String r1 (String r2 (String g1 (String g2 (String b1 (String b2 EmptyString))))))
      then Ok (inject_Z (16 * hex_val r1 + hex_val r2),
               inject_Z (16 * hex_val g1 + hex_val g2),
               inject_Z (16 * hex_val b1 + hex_val b2))
      else Raise ValueError
  | _ => Raise ValueError
  end.

Definition byte_text (x : Q) : string :=
  let n := Qfloor x in
  String (hex_digit (n / 16)) (String (hex_digit (n mod 16)) EmptyString).

Definition byte_hsluv_to_hex (t : Q * Q * Q) : string :=
  let '(a, b, c) := t in String "#" (byte_text a ++ byte_text b ++ byte_text c).

(** ** More of calx/interpol.py *)

(** [MappingBounds(from_bounds, to_bounds).map(n)], on linear bounds. *)
Record MappingBounds := mkMapping { from_bounds : InterpolationBounds; to_bounds : InterpolationBounds }.

Definition mapping_map (m : MappingBounds) (n : Q) : exc Q :=
  f <- inverse_interpolate (from_bounds m) n false ;;
  Ok (interpolate (to_bounds m) f).

(** [map_number(n, from_bounds, to_bounds)] *)
Definition map_number (n : Q) (from_b to_b : Q * Q) : exc Q :=
  mapping_map (mkMapping (mkBounds (fst from_b) (snd from_b)) (mkBounds (fst to_b) (snd to_b))) n.

(** ** More of colors.py *)

(** [ColorName] and the [HUES] theme (degrees). *)
Module Name.
Inductive ColorName :=
| red | orange | yellow | poison | green | ocean | blue | indigo | purple | pink.
End Name.

Definition COLORS : list Name.ColorName :=
  [Name.red; Name.orange; Name.yellow; Name.poison; Name.green;
   Name.ocean; Name.blue; Name.indigo; Name.purple; Name.pink].

Definition HUES (name : Name.ColorName) : Z :=
  match name with
  | Name.red => 12 | Name.orange => 29 | Name.yellow => 68 | Name.poison => 101
  | Name.green => 127 | Name.ocean => 182 | Name.blue => 244 | Name.indigo => 267
  | Name.purple => 281 | Name.pink => 329
  end.

(** [Color.from_name(name, lightness=0.5, saturation=1)] *)
Definition from_name (name : Name.ColorName) (lightness saturation : Q) : exc Color :=
  from_fields lightness saturation (inject_Z (HUES name) / 360).

(** [Color.grey(lightness=0.5)] *)
Definition grey (lightness : Q) : exc Color := from_fields lightness 0 0.

(** [Color.shade] *)
Definition shade (c : Color) (lightness : Q) : exc Color :=
  but_with c (Some lightness) None None.

(** Running a generator that yields [f x] for each [x], to completion. *)
Fixpoint exc_map {A B} (f : A -> exc B) (l : list A) : exc (list B) :=
  match l with
  | [] => Ok []
  | x :: l' => y <- f x ;; ys <- exc_map f l' ;; Ok (y :: ys)
  end.

(** [Color.shades(n, inclusive=False)], consumed whole. *)
Definition shades (c : Color) (n : Z) (inclusive : bool) : exc (list Color) :=
  exc_map (shade c) (fractions n inclusive).

(** The value of a hex digit, either case. *)
Definition hex_digit_value (c : ascii) : Z :=
  let k := Z.of_nat (nat_of_ascii c) in
  if (k <=? 57)%Z then (k - 48)%Z
  else if (k <=? 70)%Z then (k - 55)%Z
  else (k - 87)%Z.

(** The whitespace [int()] strips: tab, line feed, vertical tab, form feed,
    carriage return and space. *)
Definition is_int_space (c : ascii) : bool :=
  let k := nat_of_ascii c in ((9 <=? k) && (k <=? 13))%nat || (k =? 32)%nat.

(** [int(c1 + c2, 16)] on two characters: two digits, a sign and a digit,
    or a digit with surrounding whitespace; anything else raises. *)
Definition py_int16_pair (c1 c2 : ascii) : exc Z :=
  if is_hex_digit c1 && is_hex_digit c2 then
    Ok (16 * hex_digit_value c1 + hex_digit_value c2)%Z
  else if is_hex_digit c2 then
    if Ascii.eqb c1 "+" then Ok (hex_digit_value c2)
    else if Ascii.eqb c1 "-" then Ok (- hex_digit_value c2)%Z
    else if is_int_space c1 then Ok (hex_digit_value c2)
    else Raise ValueError
  else if is_hex_digit c1 && is_int_space c2 then Ok (hex_digit_value c1)
  else Raise ValueError.

Section ColorRGB.
Variable hsluv_to_hex : Q * Q * Q -> string.

(** [Color.rgb]: the six characters of [hex] unpacked (a [ValueError]
    otherwise), each pair read by [int(_, 16)]. *)
Definition color_rgb (c : Color) : exc RGB :=
  match color_hex hsluv_to_hex c with
  | String r1 (String r2 (String g1 (String g2 (String b1 (String b2 EmptyString))))) =>
      r <- py_int16_pair r1 r2 ;;
      g <- py_int16_pair g1 g2 ;;
      b <- py_int16_pair b1 b2 ;;
      Ok (mkRGB r g b)
  | _ => Raise ValueError
  end.

End ColorRGB.

(** A byte formats to two lower-case digits that [int(_, 16)] reads back. *)
Definition byte_format_ok (n : Z) : bool :=
  match format_02x n with
  | String d1 (String d2 EmptyString) =>
      is_lower_hex_digit d1 && is_lower_hex_digit d2 &&
      match py_int16_pair d1 d2 with Ok v => Z.eqb v n | Raise _ => false end
  | _ => false
  end.

(** * Properties *)

(** ** Python runtime *)

Lemma Qltb_iff a b : Qltb a b = true <-> a < b.
Proof.
  unfold Qltb. rewrite negb_true_iff. split; intro H.
  - apply Qnot_le_lt. intro H'. apply Qle_bool_iff in H'. congruence.
  - apply not_true_iff_false. rewrite Qle_bool_iff. now apply Qlt_not_le.
Qed.

Lemma Qeqb_neq a b : Qeqb a b = false <-> ~ a == b.
Proof.
  unfold Qeqb. rewrite <- Qeq_bool_iff. now rewrite not_true_iff_false.
Qed.

(** The floor of [x] is the integer [k] with [k <= x < k + 1]. *)
Lemma Qfloor_unique (x : Q) (k : Z) :
  inject_Z k <= x -> x < inject_Z k + 1 -> Qfloor x = k.
Proof.
  intros H1 H2. pose proof (Qfloor_le x) as F1. pose proof (Qlt_floor x) as F2.
  rewrite inject_Z_plus in F2.
  assert (A : (k < Qfloor x + 1)%Z).
  { rewrite Zlt_Qlt, inject_Z_plus. apply Qle_lt_trans with x; assumption. }
  assert (B : (Qfloor x < k + 1)%Z).
  { rewrite Zlt_Qlt, inject_Z_plus. apply Qle_lt_trans with x; assumption. }
  lia.
Qed.

(** [a % p] lies in [[0, p)] for a positive [p]. *)
Lemma py_mod_pos (a p : Q) : 0 < p ->
  exists r, py_mod a p = Ok r /\ 0 <= r /\ r < p.
Proof.
  intros Hp. unfold py_mod.
  assert (Hb : Qeqb p 0 = false) by (apply Qeqb_neq; intro E; rewrite E in Hp; discriminate).
  rewrite Hb. eexists; split; [reflexivity|].
  set (q := inject_Z (Qfloor (a / p))).
  assert (Hpz : ~ p == 0) by (intro E; rewrite E in Hp; discriminate).
  assert (L : p * q <= a).
  { rewrite <- (Qmult_div_r a p Hpz). apply Qmult_le_l; [assumption|]. apply Qfloor_le. }
  assert (U : a < p * q + p).
  { pose proof (Qlt_floor (a / p)) as F. fold q in F. rewrite inject_Z_plus in F.
    rewrite <- (Qmult_div_r a p Hpz).
    setoid_replace (p * q + p) with ((q + 1) * p) by ring.
    rewrite Qmult_comm. apply Qmult_lt_r; [assumption|]. exact F. }
  split; lra.
Qed.

(** [x % 1] for [k <= x < k + 1] is [x - k]. *)
Lemma py_mod_1 (x : Q) (k : Z) : inject_Z k <= x -> x < inject_Z k + 1 ->
  exists r, py_mod x 1 = Ok r /\ r == x - inject_Z k.
Proof.
  intros H1 H2. unfold py_mod. replace (Qeqb 1 0) with false by reflexivity.
  eexists; split; [reflexivity|].
  assert (E : Qfloor (x / 1) = k).
  { apply Qfloor_unique; setoid_replace (x / 1) with x by field; assumption. }
  rewrite E. ring.
Qed.

(** ** Interpolation bounds *)

(** C1 (amended).  For every [start], [end] and every positive [period],
    [CyclicInterpolationBounds(start, end, period)] reduces [start] and
    [end] modulo [period], keeps the reduced [end], keeps the reduced
    [start] or shifts it by one whole period, and the bounds built satisfy
    [|end - start| <= period / 2]. *)
Theorem cyclic_init_shortest_arc (start end_ period : Q) (Hp : 0 < period) :
  exists s e c,
    py_mod start period = Ok s /\ py_mod end_ period = Ok e /\
    cyclic_init start end_ period = Ok c /\
    b_end (c_base c) = e /\
    (b_start (c_base c) = s \/ b_start (c_base c) = s + period \/
     b_start (c_base c) = s - period) /\
    Qabs (b_end (c_base c) - b_start (c_base c)) <= period / 2.
Proof.
  destruct (py_mod_pos start period Hp) as (s & Hs & Hs0 & Hs1).
  destruct (py_mod_pos end_ period Hp) as (e & He & He0 & He1).
  unfold cyclic_init. rewrite Hs, He. cbn [bind].
  change (period / 2) with (period * (1 # 2)).
  destruct (Qltb (period * (1 # 2)) (py_abs (e - s))) eqn:E1;
    [destruct (Qltb s e) eqn:E2|].
  - apply Qltb_iff in E1. apply Qltb_iff in E2. unfold py_abs in E1.
    rewrite Qabs_pos in E1 by lra.
    do 3 eexists. do 4 (split; [reflexivity|]). split; [right; left; reflexivity|].
    cbn [b_end b_start c_base]. apply Qabs_Qle_condition. split; lra.
  - apply Qltb_iff in E1. unfold py_abs in E1.
    assert (E2' : e <= s) by (apply Qnot_lt_le; intro L; apply Qltb_iff in L; congruence).
    rewrite Qabs_neg in E1 by lra.
    do 3 eexists. do 4 (split; [reflexivity|]). split; [right; right; reflexivity|].
    cbn [b_end b_start c_base]. apply Qabs_Qle_condition. split; lra.
  - assert (E1' : py_abs (e - s) <= period * (1 # 2))
      by (apply Qnot_lt_le; intro L; apply Qltb_iff in L; congruence).
    do 3 eexists. do 4 (split; [reflexivity|]). split; [left; reflexivity|].
    exact E1'.
Qed.

(** C1, as stated, fails for a negative period: [CyclicInterpolationBounds(0,
    0, -1)] has [start = 1], [end = 0], and [|end - start| = 1 > -1/2]. *)
Lemma cyclic_init_negative_period :
  exists c, cyclic_init 0 0 (-1) = Ok c /\
    ~ Qabs (b_end (c_base c) - b_start (c_base c)) <= -1 / 2.
Proof.
  eexists; split; [reflexivity|].
  intro H. apply Qle_bool_iff in H. vm_compute in H. discriminate.
Qed.

(** C6.  A zero span makes [inverse_interpolate] return [0.0], for every
    [n] and either value of [inside], on linear bounds and on cyclic bounds
    alike; nothing is raised. *)
Theorem inverse_interpolate_zero_span :
  (forall b n inside, span b == 0 -> inverse_interpolate b n inside = Ok 0) /\
  (forall start end_ period c n inside,
     cyclic_init start end_ period = Ok c -> span (c_base c) == 0 ->
     cyclic_inverse_interpolate c n inside = Ok 0).
Proof.
  assert (Lin : forall b n inside, span b == 0 -> inverse_interpolate b n inside = Ok 0).
  { intros b n inside H. unfold inverse_interpolate, py_div.
    replace (Qeqb (span b) 0) with true by (symmetry; now apply Qeq_bool_iff).
    reflexivity. }
  split; [exact Lin|].
  intros start end_ period c n inside Hc Hspan.
  unfold cyclic_init, py_mod in Hc.
  destruct (Qeqb period 0) eqn:E; cbn [bind] in Hc; [discriminate|].
  injection Hc as <-.
  unfold cyclic_inverse_interpolate, py_mod. cbn [c_period c_base]. rewrite E.
  cbn [bind]. now apply Lin.
Qed.

(** C7.  Logarithmic bounds raise on non-positive values: building
    [LogarithmicInterpolationBounds(start, end, base)] with [start <= 0] or
    [end <= 0] raises (no bounds are returned), and [inverse_interpolate]
    with [n <= 0] raises [ValueError]; whatever the logarithm's values. *)
Theorem log_bounds_non_positive (ln : Q -> Q) :
  (forall start end_ base, start <= 0 \/ end_ <= 0 ->
     is_raise (log_init ln start end_ base) = true) /\
  (forall l n inside, n <= 0 ->
     log_inverse_interpolate ln l n inside = Raise ValueError).
Proof.
  assert (Dom : forall x base, x <= 0 -> py_log ln x base = Raise ValueError).
  { intros x base Hx. unfold py_log.
    replace (Qle_bool x 0) with true by (symmetry; now apply Qle_bool_iff).
    reflexivity. }
  split.
  - intros start end_ base [Hs | He]; unfold log_init.
    + now rewrite Dom.
    + destruct (py_log ln start base); cbn [bind]; [|reflexivity].
      now rewrite Dom.
  - intros l n inside Hn. unfold log_inverse_interpolate. now rewrite Dom.
Qed.

(** ** frange *)

Lemma py_max_cases a b : py_max a b = a \/ py_max a b = b.
Proof. unfold py_max. destruct (Qle_bool b a); auto. Qed.

Lemma py_max_wd a a' b b' : a == a' -> b == b' -> py_max a b == py_max a' b'.
Proof.
  intros Ha Hb. unfold py_max.
  replace (Qle_bool b a) with (Qle_bool b' a') by (now rewrite Ha, Hb).
  destruct (Qle_bool b' a'); assumption.
Qed.

Lemma isclose_wd a a' b : a == a' -> isclose a b = isclose a' b.
Proof.
  intros H. unfold isclose, Qeqb. f_equal.
  - now rewrite H.
  - apply Qleb_comp.
    + unfold py_abs. now rewrite H.
    + apply py_max_wd; [|reflexivity]. apply Qmult_comp; [reflexivity|].
      apply py_max_wd; unfold py_abs; [now rewrite H | reflexivity].
Qed.

Lemma while_cond_wd a a' e : a == a' -> while_cond a e = while_cond a' e.
Proof.
  intros H. unfold while_cond, Qltb. rewrite (isclose_wd a a' e H).
  now rewrite H.
Qed.

(** Two numbers farther apart than either is from zero are not close. *)
Lemma isclose_far a b :
  0 < Qabs (a - b) -> Qabs a <= Qabs (a - b) -> Qabs b <= Qabs (a - b) ->
  isclose a b = false.
Proof.
  intros H0 Ha Hb. unfold isclose. apply orb_false_iff. split.
  - apply Qeqb_neq. intro E. assert (Z0 : a - b == 0) by (rewrite E; ring).
    rewrite Z0 in H0. now apply Qlt_irrefl in H0.
  - apply not_true_iff_false. rewrite Qle_bool_iff. unfold py_abs, rel_tol.
    set (d := Qabs (a - b)) in *.
    assert (M : py_max (Qabs a) (Qabs b) <= d)
      by (destruct (py_max_cases (Qabs a) (Qabs b)) as [-> | ->]; assumption).
    destruct (py_max_cases ((1 # 1000000000) * py_max (Qabs a) (Qabs b)) 0) as [-> | ->];
      lra.
Qed.

Lemma inject_Z_S (i : nat) : inject_Z (Z.of_nat (S i)) == inject_Z (Z.of_nat i) + 1.
Proof. rewrite Nat2Z.inj_succ, <- Z.add_1_r, inject_Z_plus. reflexivity. Qed.

(** The loop run from [n] yields [n], [n + step], ..., each meeting the loop
    condition, and stops at the first value that does not (or when the fuel
    runs out). *)
Lemma frange_loop_spec fuel step n e :
  let '(l, done_) := frange_loop fuel step n e in
  (forall i, (i < List.length l)%nat -> nth i l 0 == n + inject_Z (Z.of_nat i) * step) /\
  (forall i, (i < List.length l)%nat -> while_cond (n + inject_Z (Z.of_nat i) * step) e = true) /\
  (done_ = true -> while_cond (n + inject_Z (Z.of_nat (List.length l)) * step) e = false) /\
  (done_ = false -> List.length l = fuel).
Proof.
  revert n. induction fuel as [|fuel IH]; intros n; cbn [frange_loop].
  - repeat split; intros; cbn in *; try lia; discriminate.
  - destruct (while_cond n e) eqn:C.
    + specialize (IH (n + step)).
      destruct (frange_loop fuel step (n + step) e) as [rest d].
      destruct IH as (IH1 & IH2 & IH3 & IH4).
      split; [|split; [|split]].
      * intros [|i] Hi; cbn [nth List.length] in *.
        -- cbn. ring.
        -- rewrite IH1 by lia. rewrite inject_Z_S. ring.
      * intros [|i] Hi; cbn [List.length] in *.
        -- rewrite <- C. apply while_cond_wd. cbn. ring.
        -- rewrite <- (IH2 i) by lia. apply while_cond_wd. rewrite inject_Z_S. ring.
      * intros Hd. cbn [List.length]. rewrite <- (IH3 Hd). apply while_cond_wd.
        rewrite inject_Z_S. ring.
      * intros Hd. cbn [List.length]. now rewrite IH4.
    + repeat split; intros; cbn [List.length] in *; try lia; try discriminate.
      rewrite <- C. apply while_cond_wd. cbn. ring.
Qed.

Lemma py_or_0 (v : Q) : py_or (Some v) 0 == v.
Proof.
  unfold py_or. destruct (Qeqb v 0) eqn:E; [|reflexivity].
  apply Qeq_bool_iff in E. now rewrite E.
Qed.

(** [frange(step, start, end)] with a non-zero [step]. *)
Lemma frange_spec fuel step s e l done_ :
  ~ step == 0 -> frange fuel step (Some s) (Some e) = Ok (l, done_) ->
  (forall i, (i < List.length l)%nat -> nth i l 0 == s + inject_Z (Z.of_nat i) * step) /\
  (forall i, (1 <= i < List.length l)%nat ->
     while_cond (s + inject_Z (Z.of_nat i) * step) e = true) /\
  (done_ = true -> while_cond (s + inject_Z (Z.of_nat (List.length l)) * step) e = false) /\
  (done_ = false -> List.length l = S fuel).
Proof.
  intros Hstep H. unfold frange in H.
  replace (Qeqb step 0) with false in H by (symmetry; now apply Qeqb_neq).
  pose proof (frange_loop_spec fuel step (py_or (Some s) 0 + step) e) as L.
  destruct (frange_loop fuel step (py_or (Some s) 0 + step) e) as [rest d].
  injection H as <- <-. destruct L as (L1 & L2 & L3 & L4).
  pose proof (py_or_0 s) as S0.
  split; [|split; [|split]].
  - intros [|i] Hi; cbn [nth List.length] in *.
    + rewrite S0. ring.
    + rewrite L1 by lia. rewrite inject_Z_S, S0. ring.
  - intros [|i] Hi; cbn [List.length] in *; [lia|].
    rewrite <- (L2 i) by lia. apply while_cond_wd. rewrite inject_Z_S, S0. ring.
  - intros Hd. cbn [List.length]. rewrite <- (L3 Hd). apply while_cond_wd.
    rewrite inject_Z_S, S0. ring.
  - intros Hd. cbn [List.length]. now rewrite L4.
Qed.

(** [frange(-1, 0, 1)] never leaves its loop. *)
Lemma frange_loop_descending fuel n :
  n <= 0 -> snd (frange_loop fuel (-1) n 1) = false.
Proof.
  revert n. induction fuel as [|fuel IH]; intros n Hn; [reflexivity|].
  cbn [frange_loop].
  assert (C : while_cond n 1 = true).
  { unfold while_cond. apply andb_true_iff. split.
    - apply Qltb_iff. lra.
    - apply negb_true_iff. apply isclose_far.
      + rewrite Qabs_neg by lra. lra.
      + rewrite Qabs_neg by lra. rewrite (Qabs_neg (n - 1)) by lra. lra.
      + rewrite (Qabs_neg (n - 1)) by lra. cbn. lra. }
  rewrite C. specialize (IH (n + -1) ltac:(lra)).
  destruct (frange_loop fuel (-1) (n + -1) 1). exact IH.
Qed.

(** [frange(step, start, end)] with a non-zero [step]: [start] (as [start or
    0]), then the loop from [start + step]. *)
Lemma frange_some fuel step s e : ~ step == 0 ->
  frange fuel step (Some s) (Some e) =
  let '(rest, done_) := frange_loop fuel step (py_or (Some s) 0 + step) e in
  Ok (py_or (Some s) 0 :: rest, done_).
Proof.
  intros Hstep. unfold frange.
  replace (Qeqb step 0) with false by (symmetry; now apply Qeqb_neq).
  reflexivity.
Qed.

(** [frange(-1, 0, 1)] never finishes. *)
Lemma frange_descending_never_done fuel :
  exists l, frange fuel (-1) (Some 0) (Some 1) = Ok (l, false).
Proof.
  rewrite frange_some by (apply Qeqb_neq; reflexivity).
  change (py_or (Some 0) 0) with 0.
  pose proof (frange_loop_descending fuel (0 + -1) ltac:(lra)) as D.
  destruct (frange_loop fuel (-1) (0 + -1) 1) as [rest d]. cbn in D. subst d.
  eexists. reflexivity.
Qed.

(** C8.  [frange(step, start, end)] with [step <> 0] yields [start] first,
    then the running values [start + i * step], each while it is below
    [end] and not close to it, and stops at the first that is not (within
    the iterations allowed); [frange(0.13, 0, 0.51)] yields exactly
    [0, 0.13, 0.26, 0.39] and [frange(0.13, 0, 0.53)] yields exactly
    [0, 0.13, 0.26, 0.39, 0.52]. *)
Theorem frange_running_values :
  (forall fuel step s e l done_,
     ~ step == 0 -> frange fuel step (Some s) (Some e) = Ok (l, done_) ->
     (forall i, (i < List.length l)%nat -> nth i l 0 == s + inject_Z (Z.of_nat i) * step) /\
     (forall i, (1 <= i < List.length l)%nat ->
        while_cond (s + inject_Z (Z.of_nat i) * step) e = true) /\
     (done_ = true ->
        while_cond (s + inject_Z (Z.of_nat (List.length l)) * step) e = false) /\
     (done_ = false -> List.length l = S fuel)) /\
  (exists l, frange 10 0.13 (Some 0) (Some 0.51) = Ok (l, true) /\
     Qlist_eqb l [0; 0.13; 0.26; 0.39] = true) /\
  (exists l, frange 10 0.13 (Some 0) (Some 0.53) = Ok (l, true) /\
     Qlist_eqb l [0; 0.13; 0.26; 0.39; 0.52] = true).
Proof.
  split; [exact frange_spec|].
  split; eexists; split; reflexivity.
Qed.

(** C4 (amended).  With [step > 0] and [end <= start], [frange(step,
    start, end)] yields [start] alone and finishes.  With [step < 0] and
    [start < end] the tail is not empty in general: [frange(-1, 0, 1)]
    yields [0, -1, -2, ...] and never finishes. *)
Theorem frange_inconsistent_sign :
  (forall fuel step s e, 0 < step -> e <= s ->
     exists s0, s0 == s /\ frange (S fuel) step (Some s) (Some e) = Ok ([s0], true)) /\
  (forall fuel, exists l, frange fuel (-1) (Some 0) (Some 1) = Ok (l, false) /\
     List.length l = S fuel /\
     forall i, (i < S fuel)%nat -> nth i l 0 == - inject_Z (Z.of_nat i)).
Proof.
  split.
  - intros fuel step s e Hstep Hse.
    assert (Hz : ~ step == 0) by (intro E; rewrite E in Hstep; discriminate).
    rewrite frange_some by exact Hz. cbn [frange_loop].
    assert (C : while_cond (py_or (Some s) 0 + step) e = false).
    { unfold while_cond. apply andb_false_iff. left.
      apply not_true_iff_false. rewrite Qltb_iff. pose proof (py_or_0 s). lra. }
    rewrite C. exists (py_or (Some s) 0). split; [apply py_or_0 | reflexivity].
  - intros fuel. destruct (frange_descending_never_done fuel) as [l F].
    exists l. split; [exact F|].
    destruct (frange_spec fuel (-1) 0 1 l false ltac:(apply Qeqb_neq; reflexivity) F)
      as (_ & _ & _ & L4).
    destruct (frange_spec fuel (-1) 0 1 l false ltac:(apply Qeqb_neq; reflexivity) F)
      as (L1 & _).
    rewrite L4 by reflexivity. split; [reflexivity|].
    intros i Hi. rewrite L1 by (rewrite L4 by reflexivity; exact Hi). ring.
Qed.

(** C4, as stated, fails: [frange(-1, 0, 1)] (a negative step while
    [start < end]) never finishes, so it does not yield [start] alone. *)
Lemma frange_negative_step_not_finite :
  ~ exists fuel l, frange fuel (-1) (Some 0) (Some 1) = Ok (l, true).
Proof.
  intros (fuel & l & H). destruct (frange_descending_never_done fuel) as [l' F].
  rewrite F in H. discriminate.
Qed.

(** ** fractions *)

Lemma fractions_exclusive (n : Z) : (0 <= n)%Z ->
  fractions n false =
  map (fun k => inject_Z (1 + Z.of_nat k) / inject_Z (n + 1)) (seq 0 (Z.to_nat n)).
Proof.
  intros Hn. unfold fractions, py_range. rewrite app_nil_l, app_nil_r, map_map.
  now replace (n + 1 - 1)%Z with n by lia.
Qed.

Lemma fractions_inclusive (n : Z) :
  fractions n true = 0 :: fractions n false ++ [1].
Proof. unfold fractions. cbn [app]. now rewrite app_nil_r. Qed.

Lemma sorted_map_seq (f : nat -> Q) :
  (forall k, f k < f (S k)) -> forall a len, Sorted Qlt (map f (seq a len)).
Proof.
  intros Hf a len. revert a. induction len as [|len IH]; intros a; cbn; [constructor|].
  constructor; [apply IH|]. destruct len; cbn; constructor. apply Hf.
Qed.

(** C9.  For every [n >= 0], [fractions(n)] yields exactly [n] values, the
    [i]-th being [i / (n + 1)] for [i = 1..n]; they increase strictly and
    lie strictly between 0 and 1; [fractions(n, inclusive=True)] adds [0]
    first and [1] last; [fractions(7)] is [0.125, 0.25, ..., 0.875] and
    [fractions(0, inclusive=True)] is [0.0, 1.0]. *)
Theorem fractions_evenly_spaced (n : Z) (Hn : (0 <= n)%Z) :
  List.length (fractions n false) = Z.to_nat n /\
  (forall i, (1 <= i <= Z.to_nat n)%nat ->
     nth (i - 1) (fractions n false) 0 == inject_Z (Z.of_nat i) / inject_Z (n + 1)) /\
  StronglySorted Qlt (fractions n false) /\
  Forall (fun x => 0 < x < 1) (fractions n false) /\
  fractions n true = 0 :: fractions n false ++ [1] /\
  Qlist_eqb (fractions 7 false) [0.125; 0.25; 0.375; 0.5; 0.625; 0.75; 0.875] = true /\
  Qlist_eqb (fractions 0 true) [0.0; 1.0] = true.
Proof.
  rewrite fractions_inclusive, (fractions_exclusive n Hn).
  set (f := fun k : nat => inject_Z (1 + Z.of_nat k) / inject_Z (n + 1)).
  assert (Hd : 0 < inject_Z (n + 1)) by (change 0 with (inject_Z 0); rewrite <- Zlt_Qlt; lia).
  split; [|split; [|split; [|split; [|split]]]].
  - now rewrite length_map, length_seq.
  - intros i Hi. rewrite nth_indep with (d' := f 0%nat)
      by (rewrite length_map, length_seq; lia).
    rewrite map_nth, seq_nth by lia. unfold f.
    now replace (1 + Z.of_nat (0 + (i - 1)))%Z with (Z.of_nat i) by lia.
  - apply Sorted_StronglySorted; [intros x y z; apply Qlt_trans|].
    apply sorted_map_seq. intros k. unfold f, Qdiv. cbv beta.
    apply Qmult_lt_r; [now apply Qinv_lt_0_compat|].
    rewrite <- Zlt_Qlt. lia.
  - apply Forall_forall. intros x Hx. apply in_map_iff in Hx.
    destruct Hx as (k & <- & Hk). apply in_seq in Hk. unfold f. split.
    + apply Qlt_shift_div_l; [exact Hd|]. rewrite Qmult_0_l. change 0 with (inject_Z 0). rewrite <- Zlt_Qlt. lia.
    + apply Qlt_shift_div_r; [exact Hd|]. rewrite Qmult_1_l, <- Zlt_Qlt. lia.
  - reflexivity.
  - split; reflexivity.
Qed.

(** ** Colour contrast *)

Lemma trim_id (x : Q) : 0 <= x <= 1 -> trim x 0 1 == x.
Proof.
  intros [H0 H1]. unfold trim, py_min, py_max.
  destruct (Qle_bool x 0) eqn:E1.
  - apply Qle_bool_iff in E1. replace (Qle_bool 0 1) with true by reflexivity. lra.
  - destruct (Qle_bool x 1) eqn:E2; [reflexivity|].
    exfalso. apply not_true_iff_false in E2. apply E2, Qle_bool_iff. exact H1.
Qed.

(** Half a turn on [[0, 1)]: [(x + 0.5) % 1] is [x + 0.5] or [x - 0.5]. *)
Lemma half_turn (x : Q) : 0 <= x < 1 ->
  exists r, py_mod (x + (1 # 2)) 1 = Ok r /\ 0 <= r < 1 /\
    (r == x + (1 # 2) \/ r == x - (1 # 2)).
Proof.
  intros [H0 H1]. destruct (Qlt_le_dec x (1 # 2)) as [L | L].
  - destruct (py_mod_1 (x + (1 # 2)) 0 ltac:(change (inject_Z 0) with 0; lra)
      ltac:(change (inject_Z 0) with 0; lra)) as (r & Hr & E).
    change (inject_Z 0) with 0 in E.
    exists r. split; [exact Hr|]. lra.
  - destruct (py_mod_1 (x + (1 # 2)) 1 ltac:(change (inject_Z 1) with 1; lra)
      ltac:(change (inject_Z 1) with 1; lra)) as (r & Hr & E).
    change (inject_Z 1) with 1 in E.
    exists r. split; [exact Hr|]. lra.
Qed.

Lemma hue_mod_1 (h : Q) : 0 <= h < 1 -> exists r, py_mod h 1 = Ok r /\ r == h.
Proof.
  intros [H0 H1].
  destruct (py_mod_1 h 0 ltac:(change (inject_Z 0) with 0; lra)
    ltac:(change (inject_Z 0) with 0; lra)) as (r & Hr & E).
  change (inject_Z 0) with 0 in E.
  exists r. split; [exact Hr|]. lra.
Qed.

Lemma contrasting_shade_step (c : Color) :
  0 <= lightness c < 1 -> 0 <= saturation c <= 1 -> 0 <= hue c < 1 ->
  exists c1 r, contrasting_shade c = Ok c1 /\
    py_mod (lightness c + (1 # 2)) 1 = Ok r /\ 0 <= r < 1 /\
    (r == lightness c + (1 # 2) \/ r == lightness c - (1 # 2)) /\
    lightness c1 == r /\ saturation c1 == saturation c /\ hue c1 == hue c.
Proof.
  intros Hl Hs Hh.
  destruct (half_turn (lightness c) Hl) as (r & Hr & Hr1 & Hr2).
  destruct (hue_mod_1 (hue c) Hh) as (h & Hh1 & Hh2).
  unfold contrasting_shade, but_with, from_fields. rewrite Hr. cbn [bind opt_default].
  rewrite Hh1. cbn [bind].
  do 2 eexists. split; [reflexivity|]. split; [reflexivity|].
  cbn [lightness saturation hue].
  split; [exact Hr1|]. split; [exact Hr2|].
  split; [apply trim_id; lra|]. split; [apply trim_id; exact Hs|]. exact Hh2.
Qed.

Lemma contrasting_hue_step (c : Color) :
  0 <= lightness c <= 1 -> 0 <= saturation c <= 1 -> 0 <= hue c < 1 ->
  exists c1 r, contrasting_hue c = Ok c1 /\
    py_mod (hue c + (1 # 2)) 1 = Ok r /\ 0 <= r < 1 /\
    (r == hue c + (1 # 2) \/ r == hue c - (1 # 2)) /\
    lightness c1 == lightness c /\ saturation c1 == saturation c /\ hue c1 == r.
Proof.
  intros Hl Hs Hh.
  destruct (half_turn (hue c) Hh) as (r & Hr & Hr1 & Hr2).
  unfold contrasting_hue, with_changed, but_with, from_fields. cbn [option_map opt_default].
  rewrite Hr. cbn [bind].
  do 2 eexists. split; [reflexivity|]. split; [reflexivity|].
  cbn [lightness saturation hue].
  split; [exact Hr1|]. split; [exact Hr2|].
  split; [apply trim_id; exact Hl|]. split; [apply trim_id; exact Hs|]. reflexivity.
Qed.

(** C5 (amended).  For every normalised colour (lightness and saturation
    in [[0, 1]], hue in [[0, 1)]) whose lightness is below 1,
    [contrasting_shade] keeps hue and saturation and, applied twice,
    returns the original colour; for every normalised colour,
    [contrasting_hue] keeps lightness and saturation, turns the hue by half
    a circle, and applied twice returns the original colour. *)
Theorem contrasting_twice :
  (forall c, normalized c -> lightness c < 1 ->
     exists c1 c2, contrasting_shade c = Ok c1 /\ contrasting_shade c1 = Ok c2 /\
       saturation c1 == saturation c /\ hue c1 == hue c /\ Color_equiv c2 c) /\
  (forall c, normalized c ->
     exists c1 c2, contrasting_hue c = Ok c1 /\ contrasting_hue c1 = Ok c2 /\
       lightness c1 == lightness c /\ saturation c1 == saturation c /\
       (hue c1 == hue c + (1 # 2) \/ hue c1 == hue c - (1 # 2)) /\
       Color_equiv c2 c).
Proof.
  split.
  - intros c (Hl & Hs & Hh) Hl1.
    destruct (contrasting_shade_step c ltac:(lra) Hs Hh)
      as (c1 & r & E1 & _ & Hr1 & Hr2 & L1 & S1 & H1).
    destruct (contrasting_shade_step c1 ltac:(lra) ltac:(lra) ltac:(lra))
      as (c2 & r2 & E2 & _ & Hq1 & Hq2 & L2 & S2 & H2).
    exists c1, c2. repeat split; try assumption.
    + unfold Color_equiv in *. lra.
    + lra.
    + lra.
  - intros c (Hl & Hs & Hh).
    destruct (contrasting_hue_step c Hl Hs Hh)
      as (c1 & r & E1 & _ & Hr1 & Hr2 & L1 & S1 & H1).
    destruct (contrasting_hue_step c1 ltac:(lra) ltac:(lra) ltac:(lra))
      as (c2 & r2 & E2 & _ & Hq1 & Hq2 & L2 & S2 & H2).
    exists c1, c2. repeat split; try assumption.
    + lra.
    + lra.
    + lra.
    + lra.
Qed.

(** C5, as stated, fails at white: [Color.from_fields(lightness=1)] has
    lightness 1, and its contrasting shade's contrasting shade has
    lightness 0. *)
Lemma contrasting_shade_twice_white :
  exists c c1 c2, from_fields 1 1 0 = Ok c /\ contrasting_shade c = Ok c1 /\
    contrasting_shade c1 = Ok c2 /\ lightness c == 1 /\ lightness c2 == 0.
Proof.
  do 3 eexists. split; [reflexivity|]. split; [reflexivity|]. split; [reflexivity|].
  split; reflexivity.
Qed.

(** ** Hex strings *)

(** C10.  [Color.from_hex(None)] and [Color.from_rgb(None)] return [None]
    and raise nothing, whatever the conversion of the [hsluv] package. *)
Theorem from_hex_from_rgb_none (hex_to_hsluv : string -> exc (Q * Q * Q)) :
  color_from_hex hex_to_hsluv None = Ok None /\
  color_from_rgb hex_to_hsluv None = Ok None.
Proof. split; reflexivity. Qed.

Ltac all_ascii c :=
  destruct c as [b0 b1 b2 b3 b4 b5 b6 b7];
  destruct b0, b1, b2, b3, b4, b5, b6, b7.

Lemma ascii_lower_hex (c : ascii) :
  is_hex_digit c = true -> is_lower_hex_digit (ascii_lower c) = true.
Proof. all_ascii c; vm_compute; intro H; first [reflexivity | discriminate H]. Qed.

Lemma str_lower_length (s : string) : String.length (str_lower s) = String.length s.
Proof. induction s as [|c s IH]; cbn; congruence. Qed.

Lemma str_lower_hex6 (s : string) : is_hex6 s = true -> is_lower_hex6 (str_lower s) = true.
Proof.
  unfold is_hex6, is_lower_hex6. rewrite str_lower_length.
  intros [Hl Hs]%andb_true_iff. rewrite Hl. cbn [andb]. clear Hl.
  induction s as [|c s IH]; cbn in *; [reflexivity|].
  apply andb_true_iff in Hs as [Hc Hs].
  rewrite ascii_lower_hex by exact Hc. apply IH, Hs.
Qed.

(** Six digits pass through [_HSLuv.from_hex] unchanged. *)
Lemma expand_hex_6 (d : string) : String.length d = 6%nat -> expand_hex d = Ok d.
Proof.
  intros H. destruct d as [|c1 [|c2 [|c3 [|c4 [|c5 [|c6 [|c7 d]]]]]]];
    cbn in H; try discriminate; reflexivity.
Qed.

(** Digits the conversion sends back to themselves come back from
    [Color.from_hex(...).hex]. *)
Lemma from_hex_then_hex_rgb hex_to_hsluv hsluv_to_hex
  (Hrt : hsluv_roundtrip hex_to_hsluv hsluv_to_hex) (Hwd : hsluv_to_hex_wd hsluv_to_hex)
  (h rgb : string) :
  expand_hex (str_lower (remove_hash h)) = Ok rgb -> is_lower_hex6 rgb = true ->
  from_hex_then_hex hex_to_hsluv hsluv_to_hex (Some h) = Ok (Some rgb).
Proof.
  intros He Hl. destruct (Hrt rgb Hl) as (t & Ht & Hx).
  unfold from_hex_then_hex, color_from_hex, hsluv_from_hex. rewrite He. cbn [bind].
  unfold hsluv_of_rgb. rewrite Ht. destruct t as [[hu sa] li]. cbn [bind].
  unfold color_from_hsluv, option_map, color_hex, hsluv_hex, color_hsluv.
  cbn [h_hue h_saturation h_lightness hue saturation lightness].
  rewrite (Hwd _ _ _ hu sa li) by field.
  now rewrite Hx.
Qed.

(** C2.  Given that [hsluv_to_hex] undoes [hex_to_hsluv] on six lower-case
    hex digits (and depends only on the numbers' values): for every [h]
    that is six hex digits, in any case, after an optional [#],
    [Color.from_hex(h).hex] is those digits lower-cased, without the [#]. *)
Theorem from_hex_hex_roundtrip hex_to_hsluv hsluv_to_hex
  (Hrt : hsluv_roundtrip hex_to_hsluv hsluv_to_hex) (Hwd : hsluv_to_hex_wd hsluv_to_hex)
  (h : string) (Hh : is_hex6 (remove_hash h) = true) :
  from_hex_then_hex hex_to_hsluv hsluv_to_hex (Some h) =
  Ok (Some (str_lower (remove_hash h))).
Proof.
  pose proof (str_lower_hex6 _ Hh) as Hl.
  apply from_hex_then_hex_rgb; [exact Hrt | exact Hwd | | exact Hl].
  apply expand_hex_6. apply andb_true_iff in Hl as [Hl _]. now apply Nat.eqb_eq.
Qed.

(** C3.  [Color.from_hex] strips one leading [#] and lower-cases, then
    expands the digits [d]: one digit [c] to [cccccc], two digits [c1 c2] to
    [c1c2c1c2c1c2], three digits [r g b] to [rrggbb], six digits to
    themselves, and passes [#] and the six digits to [hex_to_hsluv]; any
    other length raises [ValueError].  Given the conversion requirements of
    C2, [Color.from_hex("3").hex] is [333333], [Color.from_hex("03").hex] is
    [030303], [Color.from_hex("303").hex] is [330033] and
    [Color.from_hex("0af").hex] is [00aaff]. *)
Theorem from_hex_grammar hex_to_hsluv hsluv_to_hex
  (Hrt : hsluv_roundtrip hex_to_hsluv hsluv_to_hex) (Hwd : hsluv_to_hex_wd hsluv_to_hex) :
  (forall h d, str_lower (remove_hash h) = d ->
     (forall c, d = String c EmptyString ->
        hsluv_from_hex hex_to_hsluv (Some h) =
        hsluv_of_rgb hex_to_hsluv
          (String c (String c (String c (String c (String c (String c EmptyString))))))) /\
     (forall c1 c2, d = String c1 (String c2 EmptyString) ->
        hsluv_from_hex hex_to_hsluv (Some h) =
        hsluv_of_rgb hex_to_hsluv
          (String c1 (String c2 (String c1 (String c2 (String c1 (String c2 EmptyString))))))) /\
     (forall r g b, d = String r (String g (String b EmptyString)) ->
        hsluv_from_hex hex_to_hsluv (Some h) =
        hsluv_of_rgb hex_to_hsluv
          (String r (String r (String g (String g (String b (String b EmptyString))))))) /\
     (String.length d = 6%nat ->
        hsluv_from_hex hex_to_hsluv (Some h) = hsluv_of_rgb hex_to_hsluv d) /\
     (~ In (String.length d) [1; 2; 3; 6]%nat ->
        hsluv_from_hex hex_to_hsluv (Some h) = Raise ValueError)) /\
  from_hex_then_hex hex_to_hsluv hsluv_to_hex (Some "3"%string) = Ok (Some "333333"%string) /\
  from_hex_then_hex hex_to_hsluv hsluv_to_hex (Some "03"%string) = Ok (Some "030303"%string) /\
  from_hex_then_hex hex_to_hsluv hsluv_to_hex (Some "303"%string) = Ok (Some "330033"%string) /\
  from_hex_then_hex hex_to_hsluv hsluv_to_hex (Some "0af"%string) = Ok (Some "00aaff"%string).
Proof.
  split.
  - intros h d Hd. unfold hsluv_from_hex. rewrite Hd.
    split; [intros c -> | split; [intros c1 c2 -> | split; [intros r g b -> | split]]];
      try reflexivity.
    + intros Hl. now rewrite expand_hex_6.
    + intros Hn. destruct d as [|c1 [|c2 [|c3 [|c4 [|c5 [|c6 [|c7 d]]]]]]];
        cbn [String.length] in Hn; try reflexivity;
        exfalso; apply Hn; cbn; tauto.
  - repeat split; apply from_hex_then_hex_rgb; try assumption; reflexivity.
Qed.

(** ** The byte conversion meets the conversion requirements *)

Lemma hex_val_range (c : ascii) :
  is_lower_hex_digit c = true -> (0 <= hex_val c < 16)%Z.
Proof. all_ascii c; vm_compute; intro H; first [discriminate H | split; [discriminate | reflexivity]]. Qed.

Lemma hex_digit_val (c : ascii) :
  is_lower_hex_digit c = true -> hex_digit (hex_val c) = c.
Proof. all_ascii c; vm_compute; intro H; first [reflexivity | discriminate H]. Qed.

Lemma byte_split (a b : Z) : (0 <= a < 16)%Z -> (0 <= b < 16)%Z ->
  ((16 * a + b) / 16 = a /\ (16 * a + b) mod 16 = b)%Z.
Proof.
  intros Ha Hb. split.
  - symmetry. apply Z.div_unique with b; lia.
  - symmetry. apply Z.mod_unique with a; lia.
Qed.

Lemma byte_text_digits (c1 c2 : ascii) :
  is_lower_hex_digit c1 = true -> is_lower_hex_digit c2 = true ->
  byte_text (inject_Z (16 * hex_val c1 + hex_val c2)) = String c1 (String c2 EmptyString).
Proof.
  intros H1 H2. unfold byte_text. rewrite Qfloor_Z.
  destruct (byte_split _ _ (hex_val_range c1 H1) (hex_val_range c2 H2)) as [-> ->].
  now rewrite !hex_digit_val.
Qed.

Lemma byte_roundtrip : hsluv_roundtrip byte_hex_to_hsluv byte_hsluv_to_hex.
Proof.
  intros s Hs.
  destruct s as [|r1 [|r2 [|g1 [|g2 [|b1 [|b2 [|x s]]]]]]]; try discriminate Hs.
  cbn [byte_hex_to_hsluv]. rewrite Hs.
  eexists. split; [reflexivity|].
  unfold is_lower_hex6 in Hs. cbn in Hs.
  repeat match goal with H : _ && _ = true |- _ => apply andb_true_iff in H as [? H] end.
  cbn [byte_hsluv_to_hex]. rewrite !byte_text_digits by assumption. reflexivity.
Qed.

Lemma byte_wd : hsluv_to_hex_wd byte_hsluv_to_hex.
Proof.
  intros a1 a2 a3 b1 b2 b3 E1 E2 E3. unfold byte_hsluv_to_hex, byte_text.
  now rewrite (Qfloor_comp _ _ E1), (Qfloor_comp _ _ E2), (Qfloor_comp _ _ E3).
Qed.

(** ** Instances of the theorems with hypotheses *)

(** C1 at [start = 0.1], [end = 0.9], [period = 1]: [start] is shifted to
    [1.1]. *)
Lemma cyclic_init_shortest_arc_witness :
  0 < 1 /\
  exists s e c,
    py_mod (1 # 10) 1 = Ok s /\ py_mod (9 # 10) 1 = Ok e /\
    cyclic_init (1 # 10) (9 # 10) 1 = Ok c /\
    b_end (c_base c) = e /\
    (b_start (c_base c) = s \/ b_start (c_base c) = s + 1 \/ b_start (c_base c) = s - 1) /\
    Qabs (b_end (c_base c) - b_start (c_base c)) <= 1 / 2.
Proof.
  split; [reflexivity|].
  apply (cyclic_init_shortest_arc (1 # 10) (9 # 10) 1). reflexivity.
Defined.

(** C9 at [n = 7]. *)
Lemma fractions_evenly_spaced_witness :
  (0 <= 7)%Z /\
  List.length (fractions 7 false) = Z.to_nat 7 /\
  (forall i, (1 <= i <= Z.to_nat 7)%nat ->
     nth (i - 1) (fractions 7 false) 0 == inject_Z (Z.of_nat i) / inject_Z (7 + 1)) /\
  StronglySorted Qlt (fractions 7 false) /\
  Forall (fun x => 0 < x < 1) (fractions 7 false) /\
  fractions 7 true = 0 :: fractions 7 false ++ [1] /\
  Qlist_eqb (fractions 7 false) [0.125; 0.25; 0.375; 0.5; 0.625; 0.75; 0.875] = true /\
  Qlist_eqb (fractions 0 true) [0.0; 1.0] = true.
Proof.
  split; [lia|]. apply (fractions_evenly_spaced 7). lia.
Defined.

(** C2 with the byte conversion, at ["#80A3fF"]. *)
Lemma from_hex_hex_roundtrip_witness :
  is_hex6 (remove_hash "#80A3fF") = true /\
  from_hex_then_hex byte_hex_to_hsluv byte_hsluv_to_hex (Some "#80A3fF"%string) =
  Ok (Some (str_lower (remove_hash "#80A3fF"))).
Proof.
  split; [reflexivity|].
  apply (from_hex_hex_roundtrip byte_hex_to_hsluv byte_hsluv_to_hex byte_roundtrip byte_wd).
  reflexivity.
Defined.

(** C3 with the byte conversion. *)
Lemma from_hex_grammar_witness :
  hsluv_roundtrip byte_hex_to_hsluv byte_hsluv_to_hex /\
  from_hex_then_hex byte_hex_to_hsluv byte_hsluv_to_hex (Some "0af"%string) =
  Ok (Some "00aaff"%string).
Proof.
  split; [exact byte_roundtrip|].
  apply (from_hex_grammar byte_hex_to_hsluv byte_hsluv_to_hex byte_roundtrip byte_wd).
Defined.

(** * Further properties of the code *)

(** ** Helpers *)

Ltac qle_destruct :=
  match goal with
  | |- context [Qle_bool ?a ?b] =>
      lazymatch a with context [Qle_bool _ _] => fail | _ => idtac end;
      lazymatch b with context [Qle_bool _ _] => fail | _ => idtac end;
      let E := fresh "E" in
      destruct (Qle_bool a b) eqn:E;
      [apply Qle_bool_iff in E
      | apply not_true_iff_false in E; rewrite Qle_bool_iff in E; apply Qnot_le_lt in E]
  end.

Lemma trim_range (n lower upper : Q) :
  lower <= upper -> lower <= trim n lower upper <= upper.
Proof. intros H. unfold trim, py_min, py_max. repeat qle_destruct; cbv beta iota; lra. Qed.

Lemma trim_wd (n n' lower upper : Q) : n == n' -> trim n lower upper == trim n' lower upper.
Proof.
  intros H. unfold trim, py_min, py_max.
  replace (Qle_bool n lower) with (Qle_bool n' lower) by (now rewrite H).
  destruct (Qle_bool n' lower); [reflexivity|].
  replace (Qle_bool n upper) with (Qle_bool n' upper) by (now rewrite H).
  destruct (Qle_bool n' upper); [exact H | reflexivity].
Qed.

Lemma Qfloor_shift (x : Q) (k : Z) : Qfloor (x + inject_Z k) = (Qfloor x + k)%Z.
Proof.
  apply Qfloor_unique; rewrite inject_Z_plus.
  - pose proof (Qfloor_le x). lra.
  - pose proof (Qlt_floor x) as F. rewrite inject_Z_plus in F.
    change (inject_Z 1) with 1 in F. lra.
Qed.

(** [x % 1] is [x - floor(x)], in [[0, 1)]. *)
Lemma py_mod1_val (x : Q) :
  exists r, py_mod x 1 = Ok r /\ r == x - inject_Z (Qfloor x) /\ 0 <= r < 1.
Proof.
  unfold py_mod. replace (Qeqb 1 0) with false by reflexivity.
  eexists; split; [reflexivity|].
  assert (F : Qfloor (x / 1) = Qfloor x) by (apply Qfloor_comp; field).
  rewrite F. pose proof (Qfloor_le x). pose proof (Qlt_floor x) as L.
  rewrite inject_Z_plus in L. change (inject_Z 1) with 1 in L.
  split; [ring|]. lra.
Qed.

(** [x % p] for [x = r + k * p] with [0 <= r < p] is [r]. *)
Lemma py_mod_char (x p r : Q) (k : Z) :
  0 < p -> 0 <= r -> r < p -> x == r + inject_Z k * p ->
  exists r', py_mod x p = Ok r' /\ r' == r.
Proof.
  intros Hp H0 H1 Hx. unfold py_mod.
  replace (Qeqb p 0) with false
    by (symmetry; apply Qeqb_neq; intro E; rewrite E in Hp; discriminate).
  eexists; split; [reflexivity|].
  assert (F : Qfloor (x / p) = k).
  { apply Qfloor_unique.
    - apply Qle_shift_div_l; [exact Hp|]. lra.
    - apply Qlt_shift_div_r; [exact Hp|]. lra. }
  rewrite F. lra.
Qed.

(** The bounds [CyclicInterpolationBounds.__init__] builds, for a positive
    period: the reduced [end], and the reduced [start] moved by a whole
    number of periods. *)
Lemma cyclic_init_shape (s e p : Q) (c : CyclicInterpolationBounds) :
  0 < p -> cyclic_init s e p = Ok c ->
  exists s0 e0 k, py_mod s p = Ok s0 /\ py_mod e p = Ok e0 /\
    0 <= s0 < p /\ 0 <= e0 < p /\ c_period c = p /\ b_end (c_base c) = e0 /\
    b_start (c_base c) == s0 + inject_Z k * p.
Proof.
  intros Hp Hc.
  destruct (py_mod_pos s p Hp) as (s0 & Hs & Hs0 & Hs1).
  destruct (py_mod_pos e p Hp) as (e0 & He & He0 & He1).
  unfold cyclic_init in Hc. rewrite Hs, He in Hc. cbn [bind] in Hc.
  exists s0, e0.
  destruct (Qltb (p / 2) (py_abs (e0 - s0))); [destruct (Qltb s0 e0)|];
    injection Hc as <-.
  - exists 1%Z. repeat split; try assumption; cbn; unfold inject_Z; ring.
  - exists (-1)%Z. repeat split; try assumption; cbn; unfold inject_Z; ring.
  - exists 0%Z. repeat split; try assumption; cbn; unfold inject_Z; ring.
Qed.

(** [map_number] on a non-empty source span is the affine map between the
    two spans. *)
Lemma map_number_formula (a0 a1 b0 b1 n : Q) : ~ a0 == a1 ->
  exists r, map_number n (a0, a1) (b0, b1) = Ok r /\
    r == b0 + (b1 - b0) * ((n - a0) / (a1 - a0)).
Proof.
  intros Ha. unfold map_number, mapping_map, inverse_interpolate, py_div.
  cbn [fst snd from_bounds to_bounds]. unfold span. cbn [b_start b_end].
  replace (Qeqb (a1 - a0) 0) with false
    by (symmetry; apply Qeqb_neq; intro E; apply Ha; lra).
  cbn [bind]. eexists; split; [reflexivity|].
  unfold interpolate, span. cbn [b_start b_end]. reflexivity.
Qed.

Lemma frange_loop_S fuel step n e :
  frange_loop (S fuel) step n e =
  if while_cond n e
  then let '(rest, done_) := frange_loop fuel step (n + step) e in (n :: rest, done_)
  else ([], true).
Proof. reflexivity. Qed.

(** With a positive step the loop exits once [end] is within reach. *)
Lemma frange_loop_done step e : 0 < step ->
  forall k n, e <= n + inject_Z (Z.of_nat k) * step ->
  snd (frange_loop (S k) step n e) = true.
Proof.
  intros Hs k. induction k as [|k IH]; intros n H; rewrite frange_loop_S.
  - change (inject_Z (Z.of_nat 0)) with 0 in H.
    replace (while_cond n e) with false; [reflexivity|].
    symmetry. unfold while_cond. apply andb_false_iff. left.
    apply not_true_iff_false. rewrite Qltb_iff. lra.
  - destruct (while_cond n e); [|reflexivity].
    specialize (IH (n + step)).
    destruct (frange_loop (S k) step (n + step) e) as [rest d]. apply IH.
    rewrite inject_Z_S in H. lra.
Qed.

(** With a positive step the loop yields increasing values below [end]. *)
Lemma frange_loop_sorted step e : 0 < step ->
  forall fuel n, StronglySorted Qlt (fst (frange_loop fuel step n e)) /\
    Forall (fun x => n <= x /\ x < e) (fst (frange_loop fuel step n e)).
Proof.
  intros Hs fuel. induction fuel as [|fuel IH]; intros n; cbn [frange_loop].
  - split; constructor.
  - destruct (while_cond n e) eqn:C; [|split; constructor].
    apply andb_true_iff in C as [C _]. apply Qltb_iff in C.
    specialize (IH (n + step)).
    destruct (frange_loop fuel step (n + step) e) as [rest d]. cbn [fst] in *.
    destruct IH as [S1 F1]. split.
    + constructor; [exact S1|].
      eapply Forall_impl; [|exact F1]. cbv beta. intros x [Hx _]. lra.
    + constructor; [split; lra|].
      eapply Forall_impl; [|exact F1]. cbv beta. intros x [Hx Hx']. split; lra.
Qed.

Lemma fractions_range (n : Z) (inclusive : bool) :
  Forall (fun x => 0 <= x <= 1) (fractions n inclusive).
Proof.
  assert (Ex : Forall (fun x => 0 <= x <= 1) (fractions n false)).
  { destruct (Z_lt_le_dec n 0) as [Hn | Hn].
    - unfold fractions, py_range.
      replace (Z.to_nat (n + 1 - 1)) with 0%nat by lia. constructor.
    - rewrite (fractions_exclusive n Hn).
      assert (Hd : 0 < inject_Z (n + 1))
        by (change 0 with (inject_Z 0); rewrite <- Zlt_Qlt; lia).
      apply Forall_forall. intros x Hx. apply in_map_iff in Hx.
      destruct Hx as (k & <- & Hk). apply in_seq in Hk. split.
      + apply Qle_shift_div_l; [exact Hd|]. rewrite Qmult_0_l.
        change 0 with (inject_Z 0). rewrite <- Zle_Qle. lia.
      + apply Qle_shift_div_r; [exact Hd|]. rewrite Qmult_1_l, <- Zle_Qle. lia. }
  destruct inclusive; [|exact Ex].
  rewrite fractions_inclusive. constructor; [split; discriminate|].
  apply Forall_app. split; [exact Ex|]. constructor; [split; discriminate|constructor].
Qed.

Lemma ascii_lower_lower (c : ascii) :
  is_lower_hex_digit c = true -> ascii_lower c = c.
Proof. all_ascii c; vm_compute; intro H; first [reflexivity | discriminate H]. Qed.

Lemma str_lower_lower (s : string) :
  str_forallb is_lower_hex_digit s = true -> str_lower s = s.
Proof.
  induction s as [|c s IH]; cbn; [reflexivity|].
  intros [Hc Hs]%andb_true_iff. now rewrite ascii_lower_lower, IH.
Qed.

Lemma remove_hash_digit (c : ascii) (s : string) :
  is_lower_hex_digit c = true -> remove_hash (String c s) = String c s.
Proof. all_ascii c; vm_compute; intro H; first [reflexivity | discriminate H]. Qed.

(** Every byte formats to two lower-case digits that [int(_, 16)] reads
    back. *)
Lemma byte_format (n : Z) : (0 <= n < 256)%Z ->
  exists d1 d2, format_02x n = String d1 (String d2 EmptyString) /\
    is_lower_hex_digit d1 = true /\ is_lower_hex_digit d2 = true /\
    py_int16_pair d1 d2 = Ok n.
Proof.
  intros Hn.
  assert (A : forallb byte_format_ok (map Z.of_nat (seq 0 256)) = true)
    by (vm_compute; reflexivity).
  rewrite forallb_forall in A. specialize (A n).
  assert (I : In n (map Z.of_nat (seq 0 256))).
  { apply in_map_iff. exists (Z.to_nat n). split; [lia|]. apply in_seq. lia. }
  specialize (A I). unfold byte_format_ok in A.
  destruct (format_02x n) as [|d1 [|d2 [|d3 s]]]; try discriminate A.
  exists d1, d2. split; [reflexivity|].
  apply andb_true_iff in A as [A P]. apply andb_true_iff in A as [A1 A2].
  split; [exact A1|]. split; [exact A2|].
  destruct (py_int16_pair d1 d2) as [v|e]; [|discriminate P].
  apply Z.eqb_eq in P. now subst.
Qed.

Lemma py_log_pos (ln : Q -> Q) (x base : Q) :
  0 < x -> 0 < base -> ~ ln base == 0 -> py_log ln x base = Ok (ln x / ln base).
Proof.
  intros Hx Hb Hl. unfold py_log, py_div.
  replace (Qle_bool x 0) with false
    by (symmetry; apply not_true_iff_false; rewrite Qle_bool_iff; lra).
  replace (Qle_bool base 0) with false
    by (symmetry; apply not_true_iff_false; rewrite Qle_bool_iff; lra).
  replace (Qeqb (ln base) 0) with false by (symmetry; now apply Qeqb_neq).
  reflexivity.
Qed.

(** ** trim *)

(** X1.  [trim(n, lower, upper)] lies in [[lower, upper]] when
    [lower <= upper], returns [n] itself when [n] is already in that range,
    and returns [upper] whenever [upper < lower]. *)
Theorem trim_bounds (n lower upper : Q) :
  (lower <= upper -> lower <= trim n lower upper <= upper) /\
  (lower <= n <= upper -> trim n lower upper == n) /\
  (upper < lower -> trim n lower upper = upper).
Proof.
  split; [|split]; intros H; unfold trim, py_min, py_max;
    repeat qle_destruct; cbv beta iota; first [reflexivity | lra | exfalso; lra].
Qed.

(** ** Interpolation *)

(** X2.  On linear bounds with a non-zero span, [inverse_interpolate]
    undoes [interpolate]: it returns [f] (trimmed to [[0, 1]] when
    [inside]). *)
Theorem inverse_interpolate_interpolate (b : InterpolationBounds) (f : Q) (inside : bool)
  (Hs : ~ span b == 0) :
  exists g, inverse_interpolate b (interpolate b f) inside = Ok g /\
    g == (if inside then trim f 0 1 else f).
Proof.
  unfold inverse_interpolate, py_div.
  replace (Qeqb (span b) 0) with false by (symmetry; now apply Qeqb_neq).
  eexists; split; [reflexivity|].
  assert (E : (interpolate b f - b_start b) / span b == f)
    by (unfold interpolate; field; exact Hs).
  destruct inside; [apply trim_wd|]; exact E.
Qed.

(** X3.  [inverse_interpolate] never raises on linear bounds, nor on
    cyclic bounds that were built successfully; with [inside=True] its
    result lies in [[0, 1]]. *)
Theorem inverse_interpolate_total :
  (forall b n inside, exists r, inverse_interpolate b n inside = Ok r /\
     (inside = true -> 0 <= r <= 1)) /\
  (forall start end_ period c n inside, cyclic_init start end_ period = Ok c ->
     exists r, cyclic_inverse_interpolate c n inside = Ok r /\
       (inside = true -> 0 <= r <= 1)).
Proof.
  assert (Lin : forall b n inside, exists r, inverse_interpolate b n inside = Ok r /\
     (inside = true -> 0 <= r <= 1)).
  { intros b n inside. unfold inverse_interpolate, py_div.
    destruct (Qeqb (span b) 0); eexists; split; try reflexivity; intros ->.
    - split; discriminate.
    - apply trim_range. discriminate. }
  split; [exact Lin|].
  intros start end_ period c n inside Hc.
  unfold cyclic_init, py_mod in Hc.
  destruct (Qeqb period 0) eqn:E; cbn [bind] in Hc; [discriminate|].
  injection Hc as <-.
  unfold cyclic_inverse_interpolate, py_mod. cbn [c_period c_base]. rewrite E.
  cbn [bind]. apply Lin.
Qed.

(** X4.  [map_number(n, (a0, a1), (b0, b1))] with [a0 <> a1] is the affine
    map [b0 + (b1 - b0) * (n - a0) / (a1 - a0)]: it sends [a0] to [b0] and
    [a1] to [b1]. *)
Theorem map_number_affine (a0 a1 b0 b1 : Q) (Ha : ~ a0 == a1) :
  (forall n, exists r, map_number n (a0, a1) (b0, b1) = Ok r /\
     r == b0 + (b1 - b0) * ((n - a0) / (a1 - a0))) /\
  (exists r, map_number a0 (a0, a1) (b0, b1) = Ok r /\ r == b0) /\
  (exists r, map_number a1 (a0, a1) (b0, b1) = Ok r /\ r == b1).
Proof.
  assert (Hd : ~ a1 - a0 == 0) by (intro E; apply Ha; lra).
  split; [|split].
  - intros n. now apply map_number_formula.
  - destruct (map_number_formula a0 a1 b0 b1 a0 Ha) as (r & E & Er).
    exists r. split; [exact E|]. rewrite Er. field. exact Hd.
  - destruct (map_number_formula a0 a1 b0 b1 a1 Ha) as (r & E & Er).
    exists r. split; [exact E|]. rewrite Er. field. exact Hd.
Qed.

(** X5.  Mapping from [A] to [B] and back from [B] to [A] returns the
    number, when neither span is empty. *)
Theorem map_number_roundtrip (a0 a1 b0 b1 : Q) (Ha : ~ a0 == a1) (Hb : ~ b0 == b1) (n : Q) :
  exists m r, map_number n (a0, a1) (b0, b1) = Ok m /\
    map_number m (b0, b1) (a0, a1) = Ok r /\ r == n.
Proof.
  destruct (map_number_formula a0 a1 b0 b1 n Ha) as (m & Em & Hm).
  destruct (map_number_formula b0 b1 a0 a1 m Hb) as (r & Er & Hr).
  exists m, r. split; [exact Em|]. split; [exact Er|].
  rewrite Hr, Hm. field.
  split; intro E; [apply Hb | apply Ha]; lra.
Qed.

(** X6.  [map_number] with an empty source span ([a0 = a1]) sends every
    number to [b0], without raising. *)
Theorem map_number_empty_span (a0 a1 b0 b1 : Q) (Ha : a0 == a1) (n : Q) :
  exists r, map_number n (a0, a1) (b0, b1) = Ok r /\ r == b0.
Proof.
  unfold map_number, mapping_map, inverse_interpolate, py_div.
  cbn [fst snd from_bounds to_bounds]. unfold span. cbn [b_start b_end].
  replace (Qeqb (a1 - a0) 0) with true by (symmetry; apply Qeq_bool_iff; lra).
  cbn [bind]. eexists; split; [reflexivity|].
  unfold interpolate, span. cbn [b_start b_end]. ring.
Qed.

(** X7.  On cyclic bounds with a positive period, [interpolate] always
    returns a value in [[0, period)]; at [f = 0] it returns
    [start % period] and at [f = 1] it returns [end % period]. *)
Theorem cyclic_interpolate_range (start end_ period : Q) (c : CyclicInterpolationBounds)
  (Hp : 0 < period) (Hc : cyclic_init start end_ period = Ok c) :
  (forall f, exists v, cyclic_interpolate c f = Ok v /\ 0 <= v < period) /\
  (exists s0 v, py_mod start period = Ok s0 /\ cyclic_interpolate c 0 = Ok v /\ v == s0) /\
  (exists e0 v, py_mod end_ period = Ok e0 /\ cyclic_interpolate c 1 = Ok v /\ v == e0).
Proof.
  destruct (cyclic_init_shape start end_ period c Hp Hc)
    as (s0 & e0 & k & Hs & He & [Hs0 Hs1] & [He0 He1] & Hper & Hend & Hstart).
  unfold cyclic_interpolate. rewrite Hper. split; [|split].
  - intros f. destruct (py_mod_pos (interpolate (c_base c) f) period Hp) as (v & Hv & H0 & H1).
    exists v. split; [exact Hv | split; assumption].
  - destruct (py_mod_char (interpolate (c_base c) 0) period s0 k Hp Hs0 Hs1)
      as (v & Hv & Ev).
    { unfold interpolate, span. rewrite Hstart. ring. }
    exists s0, v. split; [exact Hs|]. split; [exact Hv | exact Ev].
  - destruct (py_mod_char (interpolate (c_base c) 1) period e0 0 Hp He0 He1)
      as (v & Hv & Ev).
    { unfold interpolate, span. rewrite Hend. change (inject_Z 0) with 0. ring. }
    exists e0, v. split; [exact He|]. split; [exact Hv | exact Ev].
Qed.

(** X8.  For logarithmic bounds over positive [start], [end] and [base],
    with [log(base) <> 0] and [log(start) <> log(end)],
    [inverse_interpolate] maps [start] to 0 and [end] to 1. *)
Theorem log_inverse_endpoints (ln : Q -> Q) (start end_ base : Q)
  (Hs : 0 < start) (He : 0 < end_) (Hb : 0 < base) (Hl : ~ ln base == 0)
  (Hd : ~ ln start == ln end_) :
  exists l, log_init ln start end_ base = Ok l /\ exists r0 r1,
    log_inverse_interpolate ln l start false = Ok r0 /\ r0 == 0 /\
    log_inverse_interpolate ln l end_ false = Ok r1 /\ r1 == 1.
Proof.
  unfold log_init. rewrite !py_log_pos by assumption. cbn [bind].
  assert (Hspan : ~ ln end_ / ln base - ln start / ln base == 0).
  { intro E. apply Hd.
    assert (E' : ln end_ - ln start == (ln end_ / ln base - ln start / ln base) * ln base)
      by (field; exact Hl).
    rewrite E in E'. lra. }
  eexists. split; [reflexivity|].
  unfold log_inverse_interpolate. cbn [l_base l_base_bounds].
  rewrite !py_log_pos by assumption. cbn [bind].
  unfold inverse_interpolate, py_div, span. cbn [b_start b_end].
  replace (Qeqb (ln end_ / ln base - ln start / ln base) 0) with false
    by (symmetry; now apply Qeqb_neq).
  do 2 eexists. split; [reflexivity|].
  assert (Hd' : ~ ln end_ - ln start == 0) by (intro E; apply Hd; lra).
  split; [field; tauto|]. split; [reflexivity|]. field. tauto.
Qed.

(** ** frange *)

(** X9.  With a positive [step], [frange(step, start, end)] finishes within
    [ceil((end - start) / step) + 1] iterations of its loop; it yields
    [start] first, then values that increase strictly and stay below
    [end]. *)
Theorem frange_positive_step_finishes (step s e : Q) (Hs : 0 < step) :
  exists l, frange (S (Z.to_nat (Qceiling ((e - s) / step)))) step (Some s) (Some e) = Ok (l, true) /\
    hd 0 l == s /\ StronglySorted Qlt l /\ Forall (fun x => x < e) (tl l).
Proof.
  assert (Hz : ~ step == 0) by (intro E; rewrite E in Hs; discriminate).
  rewrite frange_some by exact Hz.
  set (K := Z.to_nat (Qceiling ((e - s) / step))).
  set (s' := py_or (Some s) 0). assert (Es : s' == s) by apply py_or_0.
  assert (K1 : (e - s) / step <= inject_Z (Z.of_nat K)).
  { apply Qle_trans with (inject_Z (Qceiling ((e - s) / step))); [apply Qle_ceiling|].
    rewrite <- Zle_Qle. unfold K. lia. }
  assert (K2 : e - s <= inject_Z (Z.of_nat K) * step).
  { setoid_replace (e - s) with ((e - s) / step * step) by (field; exact Hz).
    apply Qmult_le_compat_r; [exact K1 | lra]. }
  pose proof (frange_loop_done step e Hs K (s' + step) ltac:(lra)) as D.
  pose proof (frange_loop_sorted step e Hs (S K) (s' + step)) as [S1 F1].
  destruct (frange_loop (S K) step (s' + step) e) as [rest d]. cbn [fst snd] in *. subst d.
  exists (s' :: rest). split; [reflexivity|]. split; [exact Es|]. split.
  - constructor; [exact S1|].
    eapply Forall_impl; [|exact F1]. cbv beta. intros x [Hx _]. lra.
  - cbn [tl]. eapply Forall_impl; [|exact F1]. cbv beta. intros x [_ Hx]. exact Hx.
Qed.

(** X10.  The defaults of [frange]: [frange(step)] and [frange(step, 0)]
    both run from 0 to 1 (a [0] end counts as missing); [frange(step, x)]
    with [x <> 0] runs from 0 to [x]; and a zero [step] raises
    [ValueError] whatever the other arguments. *)
Theorem frange_defaults (fuel : nat) (step : Q) :
  frange fuel step None None = frange fuel step (Some 0) (Some 1) /\
  frange fuel step (Some 0) None = frange fuel step (Some 0) (Some 1) /\
  (forall x, ~ x == 0 -> frange fuel step (Some x) None = frange fuel step (Some 0) (Some x)) /\
  (step == 0 -> forall a b, frange fuel step a b = Raise ValueError).
Proof.
  split; [reflexivity|]. split; [reflexivity|]. split.
  - intros x Hx. unfold frange, py_or.
    replace (Qeqb x 0) with false by (symmetry; now apply Qeqb_neq).
    reflexivity.
  - intros H a b. unfold frange.
    replace (Qeqb step 0) with true by (symmetry; now apply Qeq_bool_iff).
    reflexivity.
Qed.

(** ** Colours *)

(** X11.  [Color.from_fields] never raises and always builds a normalised
    colour: lightness and saturation trimmed to [[0, 1]], the hue reduced
    to [hue - floor(hue)]. *)
Theorem from_fields_normalized (l s h : Q) :
  exists c, from_fields l s h = Ok c /\ normalized c /\
    lightness c = trim l 0 1 /\ saturation c = trim s 0 1 /\
    hue c == h - inject_Z (Qfloor h).
Proof.
  destruct (py_mod1_val h) as (r & Hr & Er & R).
  unfold from_fields. rewrite Hr. cbn [bind].
  eexists; split; [reflexivity|]. cbn [lightness saturation hue].
  split; [|split; [reflexivity | split; [reflexivity | exact Er]]].
  split; [apply trim_range; discriminate|]. split; [apply trim_range; discriminate|].
  exact R.
Qed.

(** X12.  [but_with] with no overrides gives back a normalised colour
    unchanged. *)
Theorem but_with_nothing (c : Color) (Hc : normalized c) :
  exists c', but_with c None None None = Ok c' /\ Color_equiv c' c.
Proof.
  destruct Hc as (Hl & Hs & Hh).
  destruct (hue_mod_1 (hue c) Hh) as (h & Eh & Hh').
  unfold but_with, from_fields. cbn [opt_default]. rewrite Eh. cbn [bind].
  eexists; split; [reflexivity|].
  split; [apply trim_id; exact Hl|]. split; [apply trim_id; exact Hs|]. exact Hh'.
Qed.

(** X13.  A shade of a shade is a shade of the original: for every colour,
    [c.shade(a).shade(b)] equals [c.shade(b)]. *)
Theorem shade_shade (c : Color) (a b : Q) :
  exists c1 c2 c3, shade c a = Ok c1 /\ shade c1 b = Ok c2 /\ shade c b = Ok c3 /\
    Color_equiv c2 c3.
Proof.
  destruct (py_mod1_val (hue c)) as (h & Eh & _ & Rh).
  destruct (hue_mod_1 h Rh) as (h' & Eh' & Hh').
  set (s := saturation c).
  assert (S1 : shade c a = Ok (mkColor (trim a 0 1) (trim s 0 1) h))
    by (unfold shade, but_with, from_fields; cbn [opt_default]; now rewrite Eh).
  assert (S2 : shade (mkColor (trim a 0 1) (trim s 0 1) h) b =
               Ok (mkColor (trim b 0 1) (trim (trim s 0 1) 0 1) h'))
    by (unfold shade, but_with, from_fields; cbn [opt_default saturation hue]; now rewrite Eh').
  assert (S3 : shade c b = Ok (mkColor (trim b 0 1) (trim s 0 1) h))
    by (unfold shade, but_with, from_fields; cbn [opt_default]; now rewrite Eh).
  do 3 eexists. split; [exact S1|]. split; [exact S2|]. split; [exact S3|].
  cbn [lightness saturation hue]. split; [reflexivity|]. split; [|exact Hh'].
  apply trim_id. apply trim_range. discriminate.
Qed.

(** X14.  Hue turns compose: for every colour,
    [c.with_changed(hue=a).with_changed(hue=b)] equals
    [c.with_changed(hue=a + b)]. *)
Theorem hue_turns_compose (c : Color) (a b : Q) :
  exists c1 c2 c3, with_changed c None None (Some a) = Ok c1 /\
    with_changed c1 None None (Some b) = Ok c2 /\
    with_changed c None None (Some (a + b)) = Ok c3 /\ Color_equiv c2 c3.
Proof.
  destruct (py_mod1_val (hue c + a)) as (r1 & E1 & H1 & _).
  destruct (py_mod1_val (r1 + b)) as (r2 & E2 & H2 & _).
  destruct (py_mod1_val (hue c + (a + b))) as (r3 & E3 & H3 & _).
  set (l := lightness c). set (s := saturation c).
  assert (W1 : with_changed c None None (Some a) = Ok (mkColor (trim l 0 1) (trim s 0 1) r1))
    by (unfold with_changed, but_with, from_fields; cbn [option_map opt_default]; now rewrite E1).
  assert (W2 : with_changed (mkColor (trim l 0 1) (trim s 0 1) r1) None None (Some b) =
               Ok (mkColor (trim (trim l 0 1) 0 1) (trim (trim s 0 1) 0 1) r2))
    by (unfold with_changed, but_with, from_fields;
        cbn [option_map opt_default lightness saturation hue]; now rewrite E2).
  assert (W3 : with_changed c None None (Some (a + b)) = Ok (mkColor (trim l 0 1) (trim s 0 1) r3))
    by (unfold with_changed, but_with, from_fields; cbn [option_map opt_default]; now rewrite E3).
  do 3 eexists. split; [exact W1|]. split; [exact W2|]. split; [exact W3|].
  cbn [lightness saturation hue].
  split; [apply trim_id, trim_range; discriminate|].
  split; [apply trim_id, trim_range; discriminate|].
  set (k := Qfloor (hue c + a)) in *.
  assert (F2 : Qfloor (r1 + b) = (Qfloor (hue c + a + b) + - k)%Z).
  { rewrite <- Qfloor_shift. apply Qfloor_comp. rewrite H1, inject_Z_opp. ring. }
  assert (F3 : Qfloor (hue c + (a + b)) = Qfloor (hue c + a + b))
    by (apply Qfloor_comp; ring).
  rewrite F2, inject_Z_plus, inject_Z_opp in H2. rewrite F3 in H3.
  cbn [hue]. rewrite H2, H3, H1. ring.
Qed.

(** X15.  The contrasting shade of any normalised colour (white included)
    is normalised, has a lightness 0.5 higher or lower, and keeps
    saturation and hue. *)
Theorem contrasting_shade_half (c : Color) (Hc : normalized c) :
  exists c1, contrasting_shade c = Ok c1 /\ normalized c1 /\
    (lightness c1 == lightness c + (1 # 2) \/ lightness c1 == lightness c - (1 # 2)) /\
    saturation c1 == saturation c /\ hue c1 == hue c.
Proof.
  destruct Hc as ([Hl0 Hl1] & Hs & Hh).
  assert (T : exists r, py_mod (lightness c + (1 # 2)) 1 = Ok r /\ 0 <= r < 1 /\
    (r == lightness c + (1 # 2) \/ r == lightness c - (1 # 2))).
  { destruct (Qlt_le_dec (lightness c) (1 # 2)) as [L | L].
    - destruct (py_mod_1 (lightness c + (1 # 2)) 0 ltac:(change (inject_Z 0) with 0; lra)
        ltac:(change (inject_Z 0) with 0; lra)) as (r & Hr & E).
      change (inject_Z 0) with 0 in E. exists r. split; [exact Hr|]. lra.
    - destruct (py_mod_1 (lightness c + (1 # 2)) 1 ltac:(change (inject_Z 1) with 1; lra)
        ltac:(change (inject_Z 1) with 1; lra)) as (r & Hr & E).
      change (inject_Z 1) with 1 in E. exists r. split; [exact Hr|]. lra. }
  destruct T as (r & Hr & Hr1 & Hr2).
  destruct (hue_mod_1 (hue c) Hh) as (h & Eh & Hh').
  unfold contrasting_shade, but_with, from_fields. rewrite Hr. cbn [bind opt_default].
  rewrite Eh. cbn [bind].
  eexists; split; [reflexivity|]. unfold normalized. cbn [lightness saturation hue].
  assert (Tl : trim r 0 1 == r) by (apply trim_id; lra).
  assert (Ts : trim (saturation c) 0 1 == saturation c) by (apply trim_id; exact Hs).
  split; [|split; [|split; [exact Ts | exact Hh']]].
  - split; [rewrite Tl; lra|]. split; [rewrite Ts; exact Hs|]. lra.
  - rewrite Tl. exact Hr2.
Qed.

(** X16.  [Color.shades(n, inclusive)] never raises and yields one colour
    per value of [fractions(n, inclusive)], in order: its lightness is that
    value, its saturation the colour's saturation trimmed to [[0, 1]], and
    its hue the colour's hue modulo 1. *)
Theorem shades_lightness (c : Color) (n : Z) (inclusive : bool) :
  exists h cs, py_mod (hue c) 1 = Ok h /\ shades c n inclusive = Ok cs /\
    Forall2 (fun x c' => lightness c' == x /\ saturation c' = trim (saturation c) 0 1 /\
                         hue c' = h) (fractions n inclusive) cs.
Proof.
  destruct (py_mod1_val (hue c)) as (h & Eh & _).
  assert (Hs : forall x, shade c x = Ok (mkColor (trim x 0 1) (trim (saturation c) 0 1) h)).
  { intros x. unfold shade, but_with, from_fields. cbn [opt_default]. now rewrite Eh. }
  exists h. unfold shades. generalize (fractions_range n inclusive).
  induction (fractions n inclusive) as [|x xs IH]; intros F.
  - exists []. split; [exact Eh|]. split; [reflexivity | constructor].
  - inversion F as [|x' xs' Hx Hxs]; subst.
    destruct (IH Hxs) as (cs & _ & E & F2).
    eexists. split; [exact Eh|]. cbn [exc_map]. rewrite Hs. cbn [bind]. rewrite E.
    cbn [bind]. split; [reflexivity|].
    constructor; [|exact F2]. cbn [lightness saturation hue].
    split; [apply trim_id; exact Hx | split; reflexivity].
Qed.

(** X17.  [Color.from_name(name, lightness, saturation)] takes the hue
    [HUES[name] / 360] unchanged (every theme hue is below 360), and trims
    lightness and saturation; [Color.grey(lightness)] has saturation 0 and
    hue 0. *)
Theorem from_name_grey :
  (forall name l s, exists c, from_name name l s = Ok c /\
     lightness c = trim l 0 1 /\ saturation c = trim s 0 1 /\
     hue c == inject_Z (HUES name) / 360 /\ 0 <= hue c < 1) /\
  (forall l, exists c, grey l = Ok c /\
     lightness c = trim l 0 1 /\ saturation c == 0 /\ hue c == 0).
Proof.
  split.
  - intros name l s.
    assert (R : 0 <= inject_Z (HUES name) / 360 < 1).
    { split; [apply Qle_bool_iff | apply Qltb_iff]; destruct name; reflexivity. }
    destruct (hue_mod_1 _ R) as (h & Eh & Hh).
    unfold from_name, from_fields. rewrite Eh. cbn [bind].
    eexists; split; [reflexivity|]. cbn [lightness saturation hue].
    split; [reflexivity|]. split; [reflexivity|]. split; [exact Hh|].
    rewrite Hh. exact R.
  - intros l. eexists; split; [reflexivity|]. cbn [lightness saturation hue].
    split; [reflexivity|]. split; reflexivity.
Qed.

(** X18.  [Color._from_hsluv] and [Color._hsluv] undo each other: a colour
    taken to HSLuv and back is the same colour, and an HSLuv triple taken to
    a colour and back is the same triple. *)
Theorem hsluv_scaling_roundtrip :
  (forall c, exists c', color_from_hsluv (Some (color_hsluv c)) = Some c' /\ Color_equiv c' c) /\
  (forall h c, color_from_hsluv (Some h) = Some c ->
     h_hue (color_hsluv c) == h_hue h /\ h_saturation (color_hsluv c) == h_saturation h /\
     h_lightness (color_hsluv c) == h_lightness h).
Proof.
  split.
  - intros c. eexists; split; [reflexivity|].
    unfold Color_equiv. cbn. split; [|split]; field.
  - intros h c E. injection E as <-. cbn. split; [|split]; field.
Qed.

(** X19.  Given the conversion requirements of C2: for bytes [r], [g],
    [b] (0-255), [Color.from_rgb(RGB(r, g, b))] is a colour whose [hex] is
    [f"{r:02x}{g:02x}{b:02x}"] and whose [rgb] is [RGB(r, g, b)] again. *)
Theorem from_rgb_rgb_roundtrip hex_to_hsluv hsluv_to_hex
  (Hrt : hsluv_roundtrip hex_to_hsluv hsluv_to_hex) (Hwd : hsluv_to_hex_wd hsluv_to_hex)
  (r g b : Z) (Hr : (0 <= r < 256)%Z) (Hg : (0 <= g < 256)%Z) (Hb : (0 <= b < 256)%Z) :
  exists c, color_from_rgb hex_to_hsluv (Some (mkRGB r g b)) = Ok (Some c) /\
    color_hex hsluv_to_hex c = (format_02x r ++ format_02x g ++ format_02x b)%string /\
    color_rgb hsluv_to_hex c = Ok (mkRGB r g b).
Proof.
  destruct (byte_format r Hr) as (r1 & r2 & Fr & Lr1 & Lr2 & Pr).
  destruct (byte_format g Hg) as (g1 & g2 & Fg & Lg1 & Lg2 & Pg).
  destruct (byte_format b Hb) as (b1 & b2 & Fb & Lb1 & Lb2 & Pb).
  set (h := (format_02x r ++ format_02x g ++ format_02x b)%string).
  assert (Eh : h = String r1 (String r2 (String g1 (String g2 (String b1 (String b2 EmptyString))))))
    by (unfold h; rewrite Fr, Fg, Fb; reflexivity).
  assert (L6 : is_lower_hex6 h = true).
  { rewrite Eh. unfold is_lower_hex6. cbn [String.length Nat.eqb str_forallb].
    now rewrite Lr1, Lr2, Lg1, Lg2, Lb1, Lb2. }
  assert (X : expand_hex (str_lower (remove_hash h)) = Ok h).
  { rewrite Eh at 1. rewrite remove_hash_digit by exact Lr1. rewrite <- Eh.
    rewrite str_lower_lower by (apply andb_true_iff in L6; apply L6).
    apply expand_hex_6. apply andb_true_iff in L6 as [L _]. now apply Nat.eqb_eq. }
  pose proof (from_hex_then_hex_rgb hex_to_hsluv hsluv_to_hex Hrt Hwd h h X L6) as R.
  unfold from_hex_then_hex in R.
  destruct (color_from_hex hex_to_hsluv (Some h)) as [[c|]|e] eqn:Ec; cbn in R;
    try discriminate R.
  injection R as Hx. exists c.
  split; [exact Ec|]. split; [exact Hx|].
  unfold color_rgb. rewrite Hx, Eh. cbv iota. rewrite Pr, Pg, Pb. reflexivity.
Qed.

(** ** Instances of the further properties with hypotheses *)

(** X2 on the bounds [(2, 6)] at [f = 3/2], with [inside]. *)
Lemma inverse_interpolate_interpolate_witness :
  ~ span (mkBounds 2 6) == 0 /\
  exists g, inverse_interpolate (mkBounds 2 6) (interpolate (mkBounds 2 6) (3 # 2)) true = Ok g /\
    g == trim (3 # 2) 0 1.
Proof.
  split; [vm_compute; discriminate|].
  apply (inverse_interpolate_interpolate (mkBounds 2 6) (3 # 2) true).
  vm_compute; discriminate.
Defined.

(** X4 from [(0, 10)] to [(100, 200)]. *)
Lemma map_number_affine_witness :
  ~ 0 == 10 /\
  (forall n, exists r, map_number n (0, 10) (100, 200) = Ok r /\
     r == 100 + (200 - 100) * ((n - 0) / (10 - 0))) /\
  (exists r, map_number 0 (0, 10) (100, 200) = Ok r /\ r == 100) /\
  (exists r, map_number 10 (0, 10) (100, 200) = Ok r /\ r == 200).
Proof.
  split; [vm_compute; discriminate|].
  apply (map_number_affine 0 10 100 200). vm_compute; discriminate.
Defined.

(** X5 between [(0, 10)] and [(100, 200)], at [n = 7]. *)
Lemma map_number_roundtrip_witness :
  ~ 0 == 10 /\ ~ 100 == 200 /\
  exists m r, map_number 7 (0, 10) (100, 200) = Ok m /\
    map_number m (100, 200) (0, 10) = Ok r /\ r == 7.
Proof.
  split; [vm_compute; discriminate|]. split; [vm_compute; discriminate|].
  apply (map_number_roundtrip 0 10 100 200); vm_compute; discriminate.
Defined.

(** X6 from [(5, 5)] to [(100, 200)], at [n = 7]. *)
Lemma map_number_empty_span_witness :
  5 == 5 /\ exists r, map_number 7 (5, 5) (100, 200) = Ok r /\ r == 100.
Proof.
  split; [reflexivity|].
  apply (map_number_empty_span 5 5 100 200). reflexivity.
Defined.

(** X7 on [CyclicInterpolationBounds(0.1, 0.9, 1)]. *)
Lemma cyclic_interpolate_range_witness :
  0 < 1 /\ exists c, cyclic_init (1 # 10) (9 # 10) 1 = Ok c /\
  (forall f, exists v, cyclic_interpolate c f = Ok v /\ 0 <= v < 1) /\
  (exists s0 v, py_mod (1 # 10) 1 = Ok s0 /\ cyclic_interpolate c 0 = Ok v /\ v == s0) /\
  (exists e0 v, py_mod (9 # 10) 1 = Ok e0 /\ cyclic_interpolate c 1 = Ok v /\ v == e0).
Proof.
  split; [reflexivity|].
  eexists. split; [reflexivity|].
  apply (cyclic_interpolate_range (1 # 10) (9 # 10) 1); reflexivity.
Defined.

(** X8 with the logarithm [x - 1] (a stand-in satisfying the hypotheses)
    on the bounds [(2, 3)], base 3. *)
Lemma log_inverse_endpoints_witness :
  0 < 2 /\ 0 < 3 /\ 0 < 3 /\ ~ (fun x : Q => x - 1) 3 == 0 /\
  ~ (fun x : Q => x - 1) 2 == (fun x : Q => x - 1) 3 /\
  exists l, log_init (fun x => x - 1) 2 3 3 = Ok l /\ exists r0 r1,
    log_inverse_interpolate (fun x => x - 1) l 2 false = Ok r0 /\ r0 == 0 /\
    log_inverse_interpolate (fun x => x - 1) l 3 false = Ok r1 /\ r1 == 1.
Proof.
  split; [reflexivity|]. split; [reflexivity|]. split; [reflexivity|].
  split; [vm_compute; discriminate|]. split; [vm_compute; discriminate|].
  apply (log_inverse_endpoints (fun x => x - 1) 2 3 3);
    first [reflexivity | vm_compute; discriminate].
Defined.

(** X9 for [frange(0.13, 0, 0.53)]. *)
Lemma frange_positive_step_finishes_witness :
  0 < 0.13 /\
  exists l, frange (S (Z.to_nat (Qceiling ((0.53 - 0) / 0.13)))) 0.13 (Some 0) (Some 0.53) =
    Ok (l, true) /\
    hd 0 l == 0 /\ StronglySorted Qlt l /\ Forall (fun x => x < 0.53) (tl l).
Proof.
  split; [reflexivity|].
  apply (frange_positive_step_finishes 0.13 0 0.53). reflexivity.
Defined.

(** X12 at the colour [(0.5, 1, 0.25)]. *)
Lemma but_with_nothing_witness :
  normalized (mkColor (1 # 2) 1 (1 # 4)) /\
  exists c', but_with (mkColor (1 # 2) 1 (1 # 4)) None None None = Ok c' /\
    Color_equiv c' (mkColor (1 # 2) 1 (1 # 4)).
Proof.
  assert (N : normalized (mkColor (1 # 2) 1 (1 # 4)))
    by (unfold normalized; cbn; repeat split; discriminate).
  split; [exact N|]. apply (but_with_nothing (mkColor (1 # 2) 1 (1 # 4))). exact N.
Defined.

(** X15 at white, [(1, 1, 0)]. *)
Lemma contrasting_shade_half_witness :
  normalized (mkColor 1 1 0) /\
  exists c1, contrasting_shade (mkColor 1 1 0) = Ok c1 /\ normalized c1 /\
    (lightness c1 == 1 + (1 # 2) \/ lightness c1 == 1 - (1 # 2)) /\
    saturation c1 == 1 /\ hue c1 == 0.
Proof.
  assert (N : normalized (mkColor 1 1 0))
    by (unfold normalized; cbn; repeat split; discriminate).
  split; [exact N|]. apply (contrasting_shade_half (mkColor 1 1 0)). exact N.
Defined.

(** X19 with the byte conversion, at [RGB(128, 3, 255)]. *)
Lemma from_rgb_rgb_roundtrip_witness :
  hsluv_roundtrip byte_hex_to_hsluv byte_hsluv_to_hex /\
  hsluv_to_hex_wd byte_hsluv_to_hex /\
  exists c, color_from_rgb byte_hex_to_hsluv (Some (mkRGB 128 3 255)) = Ok (Some c) /\
    color_hex byte_hsluv_to_hex c = (format_02x 128 ++ format_02x 3 ++ format_02x 255)%string /\
    color_rgb byte_hsluv_to_hex c = Ok (mkRGB 128 3 255).
Proof.
  split; [exact byte_roundtrip|]. split; [exact byte_wd|].
  apply (from_rgb_rgb_roundtrip byte_hex_to_hsluv byte_hsluv_to_hex byte_roundtrip byte_wd);
    lia.
Defined.
